(** * Routing core of ESPAsyncWebServer: registries and two-phase dispatch

    A shallow embedding of [ThreadSafeList.h] (the lock-guarded ordered
    collection) and of the registry and dispatch methods of [WebServer.cpp]
    ([addRewrite], [removeRewrite], [addHandler], [removeHandler],
    [_rewriteRequest], [_attachHandler], [onNotFound], [onFileUpload],
    [onRequestBody], [catchAllHandler], [reset] and the constructor),
    followed by the properties proved about them.  The transport side of
    [WebServer.cpp] ([begin], [end], the client callback) and the methods
    that build objects declared outside the sources ([rewrite], [on],
    [serveStatic]) are not embedded. *)

From stdpp Require Import base option list strings.

(** ** [ts::ThreadSafeList<T>]

    [data_] is a [std::list<T>], embedded as a [list T] (front of the
    [std::list] = head of the list).  Every method takes [mutex_] through a
    [std::lock_guard] on entry and releases it on every exit, so each call is
    one atomic step on [data_]; a method is embedded as the function it
    computes on [data_] while it holds the lock.  A [std::unique_ptr<T>]
    result is an [option T], [nullptr] being [None]. *)
Module ts.
Section ThreadSafeList.
Context {T : Type}.

(** [operator==] of [T], as [std::find] and [std::list::remove] call it:
    the element on the left, the sought value on the right. *)
Variable T_eq : T -> T -> bool.

Record ThreadSafeList := mk { data_ : list T }.

Definition push_back (value : T) (this : ThreadSafeList) : ThreadSafeList :=
  mk (data_ this ++ [value]).

Definition push_front (value : T) (this : ThreadSafeList) : ThreadSafeList :=
  mk (value :: data_ this).

(** [emplace_back] and [emplace_front] build the element in place from
    constructor arguments; [value] is the element so built. *)
Definition emplace_back (value : T) (this : ThreadSafeList) : ThreadSafeList :=
  mk (data_ this ++ [value]).

Definition emplace_front (value : T) (this : ThreadSafeList) : ThreadSafeList :=
  mk (value :: data_ this).

Definition pop_front (this : ThreadSafeList) : option T * ThreadSafeList :=
  match data_ this with
  | [] => (None, this)
  | val :: rest => (Some val, mk rest)
  end.

Definition pop_back (this : ThreadSafeList) : option T * ThreadSafeList :=
  match data_ this with
  | [] => (None, this)
  | x :: rest => (Some (List.last rest x), mk (removelast (x :: rest)))
  end.

Definition front (this : ThreadSafeList) : option T :=
  match data_ this with
  | [] => None
  | val :: _ => Some val
  end.

Definition back (this : ThreadSafeList) : option T :=
  match data_ this with
  | [] => None
  | x :: rest => Some (List.last rest x)
  end.

(** [std::find_if]: the position of the first element satisfying
    [predicate]; [None] is the end iterator. *)
Fixpoint std_find_if (predicate : T -> bool) (l : list T) : option nat :=
  match l with
  | [] => None
  | x :: l' => if predicate x then Some 0 else S <$> std_find_if predicate l'
  end.

(** [std::find(begin, end, value)]. *)
Definition std_find (l : list T) (value : T) : option nat :=
  std_find_if (fun x => T_eq x value) l.

(** [std::list::remove_if]. *)
Fixpoint std_remove_if (predicate : T -> bool) (l : list T) : list T :=
  match l with
  | [] => []
  | x :: l' =>
      if predicate x then std_remove_if predicate l'
      else x :: std_remove_if predicate l'
  end.

Definition find_if (predicate : T -> bool) (this : ThreadSafeList) : option T :=
  match std_find_if predicate (data_ this) with
  | Some it => data_ this !! it
  | None => None
  end.

Definition remove_if (predicate : T -> bool) (this : ThreadSafeList) : ThreadSafeList :=
  mk (std_remove_if predicate (data_ this)).

(** [data_.remove(value)]: every element equal to [value] goes. *)
Definition erase (value : T) (this : ThreadSafeList) : ThreadSafeList :=
  mk (std_remove_if (fun x => T_eq x value) (data_ this)).

(** [std::find] then [data_.erase(it)] when [it] is not the end. *)
Definition erase_first (value : T) (this : ThreadSafeList) : ThreadSafeList :=
  match std_find (data_ this) value with
  | Some it => mk (delete it (data_ this))
  | None => this
  end.

(** The loop of [erase_if]: [it = data_.erase(it)] on a hit, [++it]
    otherwise, until the end. *)
Fixpoint erase_if_loop (predicate : T -> bool) (rest : list T) : list T :=
  match rest with
  | [] => []
  | x :: rest' =>
      if predicate x then erase_if_loop predicate rest'
      else x :: erase_if_loop predicate rest'
  end.

Definition erase_if (predicate : T -> bool) (this : ThreadSafeList) : ThreadSafeList :=
  mk (erase_if_loop predicate (data_ this)).

Definition clear (this : ThreadSafeList) : ThreadSafeList := mk [].

Definition size (this : ThreadSafeList) : nat := length (data_ this).

Definition empty (this : ThreadSafeList) : bool :=
  match data_ this with [] => true | _ :: _ => false end.

(** A client's calls on the two ends, and the run of a sequence of them
    on the collection: the results of the pops, in call order, and the
    collection left behind. *)
Inductive Op := PushFront (v : T) | PushBack (v : T) | PopFront | PopBack.

Fixpoint run (ops : list Op) (this : ThreadSafeList)
  : list (option T) * ThreadSafeList :=
  match ops with
  | [] => ([], this)
  | PushFront v :: ops' => run ops' (push_front v this)
  | PushBack v :: ops' => run ops' (push_back v this)
  | PopFront :: ops' =>
      let '(r, this') := pop_front this in
      let '(rs, final) := run ops' this' in (r :: rs, final)
  | PopBack :: ops' =>
      let '(r, this') := pop_back this in
      let '(rs, final) := run ops' this' in (r :: rs, final)
  end.

(** *** The reference double-ended sequence

    A two-stack deque, written independently of the collection: [fr]
    holds the front part, first element on top; [bk] holds the back part,
    last element on top.  A pop at an end whose stack is empty takes the
    bottom of the other stack. *)
Record RefDeque := mkRef { fr : list T; bk : list T }.

Definition contents (d : RefDeque) : list T := fr d ++ rev (bk d).

Definition ref_of_list (l : list T) : RefDeque := mkRef l [].

Definition ref_push_front (v : T) (d : RefDeque) : RefDeque :=
  mkRef (v :: fr d) (bk d).

Definition ref_push_back (v : T) (d : RefDeque) : RefDeque :=
  mkRef (fr d) (v :: bk d).

Definition ref_pop_front (d : RefDeque) : option T * RefDeque :=
  match fr d with
  | v :: f => (Some v, mkRef f (bk d))
  | [] =>
      match rev (bk d) with
      | v :: f => (Some v, mkRef f [])
      | [] => (None, d)
      end
  end.

Definition ref_pop_back (d : RefDeque) : option T * RefDeque :=
  match bk d with
  | v :: b => (Some v, mkRef (fr d) b)
  | [] =>
      match rev (fr d) with
      | v :: b => (Some v, mkRef [] b)
      | [] => (None, d)
      end
  end.

Fixpoint ref_run (ops : list Op) (d : RefDeque) : list (option T) * RefDeque :=
  match ops with
  | [] => ([], d)
  | PushFront v :: ops' => ref_run ops' (ref_push_front v d)
  | PushBack v :: ops' => ref_run ops' (ref_push_back v d)
  | PopFront :: ops' =>
      let '(r, d') := ref_pop_front d in
      let '(rs, final) := ref_run ops' d' in (r :: rs, final)
  | PopBack :: ops' =>
      let '(r, d') := ref_pop_back d in
      let '(rs, final) := ref_run ops' d' in (r :: rs, final)
  end.

(** Counting and selecting by [operator==], to state what the erasures
    remove and what they keep. *)
Definition equal_count (value : T) (l : list T) : nat :=
  length (List.filter (fun x => T_eq x value) l).

Definition unequal (value : T) (l : list T) : list T :=
  List.filter (fun x => negb (T_eq x value)) l.

End ThreadSafeList.
Arguments ThreadSafeList : clear implicits.
Arguments RefDeque : clear implicits.
Arguments Op : clear implicits.
End ts.

(** ** A state monad for the methods of [AsyncWebServer]

    A method is a function from the state it may read and write to its
    result and the state it leaves. *)
Definition State (St A : Type) : Type := St -> A * St.

Definition ret {St A} (a : A) : State St A := fun s => (a, s).

Definition bind {St A B} (c : State St A) (k : A -> State St B) : State St B :=
  fun s => let '(a, s') := c s in k a s'.

Definition gets {St A} (f : St -> A) : State St A := fun s => (f s, s).

Definition modify {St} (f : St -> St) : State St unit := fun s => (tt, f s).

Definition exec {St A} (c : State St A) (s : St) : St := snd (c s).

Definition eval {St A} (c : State St A) (s : St) : A := fst (c s).

Notation "x <- c1 ;; c2" := (bind c1 (fun x => c2))
  (at level 100, c1 at next level, right associativity).
Notation "c1 ;; c2" := (bind c1 (fun _ => c2))
  (at level 100, right associativity).

(** A [for] loop over a [std::list] whose body may [return]: [it] is the
    position of the iterator, [rest] the elements from [it] to the end.
    The body answers [Some v] when it executed [return v], which leaves the
    loop, and [None] when it fell through to the next iteration. *)
Fixpoint for_iter {St A R} (body : nat -> A -> State St (option R))
    (it : nat) (rest : list A) : State St (option R) :=
  match rest with
  | [] => ret None
  | x :: rest' =>
      r <- body it x ;;
      match r with
      | Some v => ret (Some v)
      | None => for_iter body (S it) rest'
      end
  end.

(** ** [AsyncWebServer]

    On ESP32 every registry method holds [_rewriteLock] or [_handleLock]
    (both for [reset]) from its first statement to its return, so a method
    is one atomic step on the members it guards and is embedded as that
    step.  [String] is embedded as [string]; the strings of a rule come
    from C strings, so comparing one with a [const char *] is string
    equality. *)
Module WebServer.

(** The address of a live handler object.  A handler pointer that may be
    null ([AsyncWebServerRequest::_handler]) is an [option addr]. *)
Definition addr := nat.

(** Modelled from the spec: [AsyncWebServerRequest] is declared in
    ESPAsyncWebServer.h, which is not among the sources.  Spec 3 and 6: a
    mutable URL field, a mutable string-keyed parameter multi-map and a
    single handler-reference field.  The multi-map is embedded as the list
    of its bindings, oldest first. *)
Record AsyncWebServerRequest := mkRequest {
  _url : string;
  _params : list (string * string);
  _handler : option addr;
}.

(** Modelled from the spec: [AsyncWebRewrite] is declared in
    ESPAsyncWebServer.h.  Spec 3: [{ fromPattern, toUrl, matcher:
    predicate(request) -> bool, extractedParams: mapping<string,string> }].
    The parameters are embedded as the list of their bindings.  [match] is
    virtual; the embedding makes it a field, a predicate on the request as
    it stands when the matcher is called. *)
Record AsyncWebRewrite := mkRewrite {
  from : string;
  toUrl : string;
  params : list (string * string);
  match_ : AsyncWebServerRequest -> bool;
}.

(** Modelled from the spec: [AsyncWebHandler] is declared in
    ESPAsyncWebServer.h.  Spec 3: the capability set [{ filter(request) ->
    bool, canHandle(request) -> bool, process(request) }]; [self] is the
    address of the object, which is what [removeHandler] compares and
    what [setHandler] stores. *)
Record AsyncWebHandler := mkHandler {
  self : addr;
  filter : AsyncWebServerRequest -> bool;
  canHandle : AsyncWebServerRequest -> bool;
}.

Section Server.
(** The three callback types of ESPAsyncWebServer.h; no method embedded
    here calls one. *)
Context {ArRequestHandlerFunction ArUploadHandlerFunction ArBodyHandlerFunction : Type}.

(** Modelled from the spec: [AsyncCallbackWebHandler] is declared in
    WebHandlerImpl.h.  Spec 3: a handler that delegates to user-supplied
    functions for request, upload and body events; an unset
    [std::function] (NULL) is [None]. *)
Record AsyncCallbackWebHandler := mkCallbackHandler {
  base : AsyncWebHandler;
  _onRequest : option ArRequestHandlerFunction;
  _onUpload : option ArUploadHandlerFunction;
  _onBody : option ArBodyHandlerFunction;
}.

(** Modelled from the spec: the setters of WebHandlerImpl.h store the
    function they are given. *)
Definition onRequest (fn : option ArRequestHandlerFunction)
    (h : AsyncCallbackWebHandler) : AsyncCallbackWebHandler :=
  mkCallbackHandler (base h) fn (_onUpload h) (_onBody h).

Definition onUpload (fn : option ArUploadHandlerFunction)
    (h : AsyncCallbackWebHandler) : AsyncCallbackWebHandler :=
  mkCallbackHandler (base h) (_onRequest h) fn (_onBody h).

Definition onBody (fn : option ArBodyHandlerFunction)
    (h : AsyncCallbackWebHandler) : AsyncCallbackWebHandler :=
  mkCallbackHandler (base h) (_onRequest h) (_onUpload h) fn.

(** The members of [AsyncWebServer] the registry methods use.
    [_rewrites] is a list of [std::shared_ptr<AsyncWebRewrite>],
    [_handlers] a list of owning pointers to [AsyncWebHandler]: an entry
    is embedded as the object it points to.  [_catchAllHandler] is the
    pointer set by the constructor, embedded with its object. *)
Record AsyncWebServer := mkServer {
  _rewrites : list AsyncWebRewrite;
  _handlers : list AsyncWebHandler;
  _catchAllHandler : AsyncCallbackWebHandler;
}.

Definition set_rewrites (l : list AsyncWebRewrite) (this : AsyncWebServer) :=
  mkServer l (_handlers this) (_catchAllHandler this).

Definition set_handlers (l : list AsyncWebHandler) (this : AsyncWebServer) :=
  mkServer (_rewrites this) l (_catchAllHandler this).

Definition set_catchAll (h : AsyncCallbackWebHandler) (this : AsyncWebServer) :=
  mkServer (_rewrites this) (_handlers this) h.

(** [AsyncWebServer::AsyncWebServer]: [fresh] is the object that
    [new AsyncCallbackWebHandler()] returns. *)
Definition AsyncWebServer_new (fresh : AsyncCallbackWebHandler) : AsyncWebServer :=
  mkServer [] [] fresh.

Definition addRewrite (rewrite : AsyncWebRewrite) : State AsyncWebServer AsyncWebRewrite :=
  modify (fun this => set_rewrites (_rewrites this ++ [rewrite]) this) ;;
  ret rewrite.

Definition removeRewrite (from_ to : string) : State AsyncWebServer bool :=
  rs <- gets _rewrites ;;
  found <- for_iter (fun r x =>
      if String.eqb (from x) from_ && String.eqb (toUrl x) to then
        modify (fun this => set_rewrites (delete r (_rewrites this)) this) ;;
        ret (Some true)
      else ret None) 0 rs ;;
  match found with
  | Some b => ret b
  | None => ret false
  end.

(** The overload of [removeRewrite] that takes a pointer to a rule: only
    the two strings of the object reach the search. *)
Definition removeRewrite_obj (rewrite : AsyncWebRewrite) : State AsyncWebServer bool :=
  removeRewrite (from rewrite) (toUrl rewrite).

Definition addHandler (handler : AsyncWebHandler) : State AsyncWebServer AsyncWebHandler :=
  modify (fun this => set_handlers (_handlers this ++ [handler]) this) ;;
  ret handler.

(** *** Ownership of the handlers

    Modelled from the spec: [_handlers] is declared in ESPAsyncWebServer.h.
    Its entries are smart pointers, built from the raw pointer that
    [addHandler] is given and read with [get()]; spec 3: handlers are
    destroyed only by explicit removal or full registry reset.  Erasing an
    entry, or clearing the list, therefore destroys the object the entry
    points to.  The members of the server do not show that, so the methods
    that erase entries are embedded on the server together with
    [destroyed], the addresses of the objects destroyed so far, oldest
    first.  An address listed twice was deleted twice.  The entries of
    [_rewrites] are shared pointers and destroy nothing the server goes on
    using. *)
Record Machine := mkMachine {
  members : AsyncWebServer;
  destroyed : list addr;
}.

(** A method that erases no entry of [_handlers]. *)
Definition keeping {A} (c : State AsyncWebServer A) : State Machine A :=
  fun m => let '(a, this) := c (members m) in (a, mkMachine this (destroyed m)).

(** [_handlers.erase(i)]: the entry leaves the list and the object it owns
    is destroyed. *)
Definition erase (i : nat) : State Machine unit :=
  modify (fun m =>
    match _handlers (members m) !! i with
    | Some h =>
        mkMachine (set_handlers (delete i (_handlers (members m))) (members m))
          (destroyed m ++ [self h])
    | None => m
    end).

(** [AsyncWebServer::removeHandler], lines 117-128. *)
Definition removeHandler_owned (handler : addr) : State Machine bool :=
  hs <- gets (fun m => _handlers (members m)) ;;
  found <- for_iter (fun i x =>
      if Nat.eqb (self x) handler then
        erase i ;;
        ret (Some true)
      else ret None) 0 hs ;;
  match found with
  | Some b => ret b
  | None => ret false
  end.

(** What [removeHandler] returns and what it leaves in the members of the
    server, the objects destroyed apart. *)
Definition removeHandler (handler : addr) : State AsyncWebServer bool :=
  fun this =>
    let '(found, m) := removeHandler_owned handler (mkMachine this []) in
    (found, members m).

Definition onNotFound (fn : option ArRequestHandlerFunction) : State AsyncWebServer unit :=
  modify (fun this => set_catchAll (onRequest fn (_catchAllHandler this)) this).

Definition onFileUpload (fn : option ArUploadHandlerFunction) : State AsyncWebServer unit :=
  modify (fun this => set_catchAll (onUpload fn (_catchAllHandler this)) this).

Definition onRequestBody (fn : option ArBodyHandlerFunction) : State AsyncWebServer unit :=
  modify (fun this => set_catchAll (onBody fn (_catchAllHandler this)) this).

Definition catchAllHandler (this : AsyncWebServer) : AsyncWebHandler :=
  base (_catchAllHandler this).

(** [_handlers.clear()]: every entry leaves the list and the objects they
    own are destroyed, front to back. *)
Definition clear : State Machine unit :=
  modify (fun m =>
    mkMachine (set_handlers [] (members m))
      (destroyed m ++ (self <$> _handlers (members m)))).

(** [AsyncWebServer::reset], lines 217-228: the handlers are destroyed
    before the callbacks of the catch-all are written. *)
Definition reset_owned : State Machine unit :=
  keeping (modify (set_rewrites [])) ;;
  clear ;;
  keeping (modify (fun this => set_catchAll (onRequest None (_catchAllHandler this)) this)) ;;
  keeping (modify (fun this => set_catchAll (onUpload None (_catchAllHandler this)) this)) ;;
  keeping (modify (fun this => set_catchAll (onBody None (_catchAllHandler this)) this)).

(** What [reset] leaves in the members of the server, the objects
    destroyed apart. *)
Definition reset : State AsyncWebServer unit :=
  fun this =>
    let '(u, m) := reset_owned (mkMachine this []) in
    (u, members m).

(** *** The methods that take a request

    They run on the server together with the request their argument
    points to.  [assigned] is not program state: it records, oldest
    first, the argument of every [setHandler] call made on the request,
    so that the number of assignments can be stated. *)
Record World := mkWorld {
  server : AsyncWebServer;
  request : AsyncWebServerRequest;
  assigned : list addr;
}.


(** A call of a [bool] method that reads the request. *)
Definition ask (p : AsyncWebServerRequest -> bool) : State World bool :=
  gets (fun w => p (request w)).

(** [request->_url = url]. *)
Definition assign_url (url : string) : State World unit :=
  modify (fun w =>
    mkWorld (server w)
      (mkRequest url (_params (request w)) (_handler (request w)))
      (assigned w)).

(** Modelled from the spec: [AsyncWebServerRequest::_addGetParams] is
    defined outside the sources.  Spec 4.2, 8 and 9: the rule's parameters
    are merged into the request's parameter multi-map, merge and not
    replace: the bindings already there stay, the rule's bindings are added
    after them. *)
Definition _addGetParams (ps : list (string * string)) : State World unit :=
  modify (fun w =>
    mkWorld (server w)
      (mkRequest (_url (request w)) (_params (request w) ++ ps)
         (_handler (request w)))
      (assigned w)).

(** Modelled from the spec: [AsyncWebServerRequest::setHandler] stores
    the pointer in the request's handler-reference field (spec 3). *)
Definition setHandler (h : addr) : State World unit :=
  modify (fun w =>
    mkWorld (server w)
      (mkRequest (_url (request w)) (_params (request w)) (Some h))
      (assigned w ++ [h])).

Definition _rewriteRequest : State World unit :=
  rs <- gets (fun w => _rewrites (server w)) ;;
  for_iter (R := unit) (fun _ r =>
      m <- ask (match_ r) ;;
      if m then
        assign_url (toUrl r) ;;
        _addGetParams (params r) ;;
        ret None
      else ret None) 0 rs ;;
  ret tt.

Definition _attachHandler : State World unit :=
  hs <- gets (fun w => _handlers (server w)) ;;
  attached <- for_iter (fun _ h =>
      f <- ask (filter h) ;;
      if f then
        c <- ask (canHandle h) ;;
        if c then setHandler (self h) ;; ret (Some tt)
        else ret None
      else ret None) 0 hs ;;
  match attached with
  | Some _ => ret tt
  | None =>
      catchAll <- gets (fun w => self (catchAllHandler (server w))) ;;
      setHandler catchAll
  end.

(** Modelled from the spec: the caller of the two phases is outside the
    sources.  Spec 4.4: rewrite resolution, then handler selection. *)
Definition dispatch : State World unit :=
  _rewriteRequest ;; _attachHandler.

(** *** Vocabulary of the statements *)

(** What one matching rule does to the request. *)
Definition apply_rule (r : AsyncWebRewrite) (q : AsyncWebServerRequest)
  : AsyncWebServerRequest :=
  mkRequest (toUrl r) (_params q ++ params r) (_handler q).

(** The rules that resolution applies to [q], in the order it applies
    them: a rule is applied when its matcher succeeds on the request as
    the rules applied before it left it. *)
Fixpoint applied (rs : list AsyncWebRewrite) (q : AsyncWebServerRequest)
  : list AsyncWebRewrite :=
  match rs with
  | [] => []
  | r :: rs' =>
      if match_ r q then r :: applied rs' (apply_rule r q)
      else applied rs' q
  end.

(** [h] accepts [q]: [filter] and [canHandle] both succeed. *)
Definition accepts (q : AsyncWebServerRequest) (h : AsyncWebHandler) : bool :=
  filter h q && canHandle h q.

(** The rule has the two strings that [removeRewrite] compares. *)
Definition same_rule (from_ to : string) (r : AsyncWebRewrite) : Prop :=
  from r = from_ /\ toUrl r = to.

(** A list of rules applied in turn, and the request that resolution
    leaves: the applied rules, applied. *)
Definition apply_all (q : AsyncWebServerRequest) (hits : list AsyncWebRewrite)
  : AsyncWebServerRequest :=
  foldl (fun q' r => apply_rule r q') q hits.

Definition resolved (rs : list AsyncWebRewrite) (q : AsyncWebServerRequest)
  : AsyncWebServerRequest :=
  apply_all q (applied rs q).

(** No entry of the handler collection is the catch-all object. *)
Definition catchAll_apart (this : AsyncWebServer) : Prop :=
  forall h, h ∈ _handlers this -> self h <> self (catchAllHandler this).

End Server.
Arguments AsyncCallbackWebHandler : clear implicits.
Arguments AsyncWebServer : clear implicits.
Arguments Machine : clear implicits.
Arguments World : clear implicits.
End WebServer.

(** ** A small configuration

    Two chained rewrite rules, three handlers and a catch-all, used to run
    the statements below on concrete values. *)
Module demo.
Import WebServer.
Open Scope string_scope.

Definition R1 : AsyncWebRewrite :=
  mkRewrite "/old" "/A" [("p", "1"); ("q", "x")]
    (fun q => String.eqb (_url q) "/old").

Definition R2 : AsyncWebRewrite :=
  mkRewrite "/A" "/B" [("p", "2")] (fun q => String.eqb (_url q) "/A").

(** A second rule with the strings of [R2], and an object with the same
    strings that is never registered. *)
Definition R2b : AsyncWebRewrite :=
  mkRewrite "/A" "/B" [("p", "3")] (fun q => String.eqb (_url q) "/A").

Definition probe : AsyncWebRewrite :=
  mkRewrite "/A" "/B" [] (fun _ => false).

Definition H1 : AsyncWebHandler := mkHandler 11 (fun _ => true) (fun _ => false).

Definition H2 : AsyncWebHandler :=
  mkHandler 12 (fun _ => true) (fun q => String.eqb (_url q) "/B").

Definition H3 : AsyncWebHandler := mkHandler 13 (fun _ => true) (fun _ => true).

Definition H4 : AsyncWebHandler := mkHandler 14 (fun _ => true) (fun _ => true).

Definition fresh : AsyncCallbackWebHandler unit unit unit :=
  mkCallbackHandler (mkHandler 1 (fun _ => true) (fun _ => true)) None None None.

Definition srv : AsyncWebServer unit unit unit :=
  mkServer [R1; R2] [H1; H2; H3] fresh.

(** Registries with repeated entries: the strings of [R2] twice, the
    handler [H1] registered twice. *)
Definition srv_dup : AsyncWebServer unit unit unit :=
  mkServer [R1; R2; R2b] [H2; H1; H3; H1] fresh.

(** Two rules for the same incoming URL: both matchers succeed on a
    request for ["/a"] as it comes in. *)
Definition Sa : AsyncWebRewrite :=
  mkRewrite "/a" "/A" [("p", "1")] (fun q => String.eqb (_url q) "/a").

Definition Sb : AsyncWebRewrite :=
  mkRewrite "/a" "/B" [("p", "2")] (fun q => String.eqb (_url q) "/a").

(** Rules whose matchers do not look at the request. *)
Definition Ra : AsyncWebRewrite := mkRewrite "/x" "/one" [("a", "1")] (fun _ => true).

Definition Rb : AsyncWebRewrite := mkRewrite "/x" "/two" [("a", "2")] (fun _ => false).

Definition Rc : AsyncWebRewrite := mkRewrite "/x" "/three" [("c", "3")] (fun _ => true).

Definition srv_fixed : AsyncWebServer unit unit unit :=
  mkServer [Ra; Rb; Rc] [] fresh.

Definition req : AsyncWebServerRequest :=
  mkRequest "/old" [("z", "0"); ("p", "0")] None.

Definition req_other : AsyncWebServerRequest :=
  mkRequest "/other" [("z", "0")] None.

End demo.

(** ** Iteration over the collection

    [for_each] and [for_each_mutable] of [ThreadSafeList.h].  The visitor
    is a [std::function] returning [void]: what it does is what it writes
    to the state it captured, of type [St], and, for the mutable variant,
    to the element it is handed by reference. *)
Section ForEach.
Context {T St : Type}.

Fixpoint for_each_loop (fn : T -> State St unit) (items : list T) : State St unit :=
  match items with
  | [] => ret tt
  | item :: rest => fn item ;; for_each_loop fn rest
  end.

Definition for_each (fn : T -> State St unit) (this : ts.ThreadSafeList T)
  : State St unit :=
  for_each_loop fn (ts.data_ this).

Fixpoint for_each_mutable_loop (fn : T -> State St T) (items : list T)
  : State St (list T) :=
  match items with
  | [] => ret []
  | item :: rest =>
      item' <- fn item ;;
      rest' <- for_each_mutable_loop fn rest ;;
      ret (item' :: rest')
  end.

Definition for_each_mutable (fn : T -> State St T) (this : ts.ThreadSafeList T)
  : State St (ts.ThreadSafeList T) :=
  data' <- for_each_mutable_loop fn (ts.data_ this) ;;
  ret (ts.mk data').

End ForEach.

(** ** Counting over runs of the collection *)
Section Runs.
Context {T : Type}.

(** The pushes among a client's calls, and the pops that returned a
    value among the results of a run. *)
Definition pushes (ops : list (ts.Op T)) : nat :=
  length (List.filter
            (fun o => match o with ts.PushFront _ | ts.PushBack _ => true | _ => false end)
            ops).

Definition pops (ops : list (ts.Op T)) : nat :=
  length (List.filter
            (fun o => match o with ts.PopFront | ts.PopBack => true | _ => false end)
            ops).

Definition returned (results : list (option T)) : nat :=
  length (List.filter (fun r => match r with Some _ => true | None => false end) results).

(** What [n] pops at one end answer on a collection holding [l], front
    first for [pop_front], back first for [pop_back]: its elements while
    there are any, then absence. *)
Definition drained (n : nat) (l : list T) : list (option T) :=
  map Some (take n l) ++ replicate (n - length l) None.

End Runs.

(** ** The interface filters of [WebServer.cpp]

    [ON_STA_FILTER] and [ON_AP_FILTER] compare the address of the WiFi
    interface with the local address of the request's connection.  The
    preprocessor condition, [WiFi.localIP()], [request->client()->localIP()]
    and the two comparison operators of [IPAddress] come from outside the
    sources and are parameters. *)
Section InterfaceFilters.
Context {IPAddress : Type}.
Variables (ip_eq ip_ne : IPAddress -> IPAddress -> bool).
Variables (SOC_WIFI_SUPPORTED CONFIG_ESP_WIFI_REMOTE_ENABLED LT_ARD_HAS_WIFI : bool).
Variable WiFi_localIP : IPAddress.
Variable client_localIP : WebServer.AsyncWebServerRequest -> IPAddress.

Definition ON_STA_FILTER (request : WebServer.AsyncWebServerRequest) : bool :=
  if SOC_WIFI_SUPPORTED || CONFIG_ESP_WIFI_REMOTE_ENABLED || LT_ARD_HAS_WIFI
  then ip_eq WiFi_localIP (client_localIP request)
  else false.

Definition ON_AP_FILTER (request : WebServer.AsyncWebServerRequest) : bool :=
  if SOC_WIFI_SUPPORTED || CONFIG_ESP_WIFI_REMOTE_ENABLED || LT_ARD_HAS_WIFI
  then ip_ne WiFi_localIP (client_localIP request)
  else false.

End InterfaceFilters.

(** ** Sequences of configuration calls *)
Section Configuration.
Import WebServer.
Context {RF UF BF : Type}.

(** The handler that selection binds for [q]: the first registered handler
    that accepts it, the catch-all when there is none. *)
Definition selected (this : AsyncWebServer RF UF BF) (q : AsyncWebServerRequest) : addr :=
  match List.find (accepts q) (_handlers this) with
  | Some h => self h
  | None => self (catchAllHandler this)
  end.

(** A call of the configuration surface of the server. *)
Inductive ServerOp :=
| OpAddRewrite (rewrite : AsyncWebRewrite)
| OpRemoveRewrite (from_ to : string)
| OpRemoveRewriteObj (rewrite : AsyncWebRewrite)
| OpAddHandler (handler : AsyncWebHandler)
| OpRemoveHandler (handler : addr)
| OpOnNotFound (fn : option RF)
| OpOnFileUpload (fn : option UF)
| OpOnRequestBody (fn : option BF)
| OpReset.

Definition run_op (op : ServerOp) (this : AsyncWebServer RF UF BF)
  : AsyncWebServer RF UF BF :=
  match op with
  | OpAddRewrite r => exec (addRewrite r) this
  | OpRemoveRewrite from_ to => exec (removeRewrite from_ to) this
  | OpRemoveRewriteObj r => exec (removeRewrite_obj r) this
  | OpAddHandler h => exec (addHandler h) this
  | OpRemoveHandler p => exec (removeHandler p) this
  | OpOnNotFound fn => exec (onNotFound fn) this
  | OpOnFileUpload fn => exec (onFileUpload fn) this
  | OpOnRequestBody fn => exec (onRequestBody fn) this
  | OpReset => exec reset this
  end.

Definition run_ops (ops : list ServerOp) (this : AsyncWebServer RF UF BF)
  : AsyncWebServer RF UF BF :=
  foldl (fun s op => run_op op s) this ops.

(** The call registers a handler at address [p]. *)
Definition registers (p : addr) (op : ServerOp) : Prop :=
  match op with
  | OpAddHandler h => self h = p
  | _ => False
  end.

(** The call is one of the three callback setters. *)
Definition sets_callback (op : ServerOp) : Prop :=
  match op with
  | OpOnNotFound _ | OpOnFileUpload _ | OpOnRequestBody _ => True
  | _ => False
  end.

(** The request as each phase, and the whole dispatch, leaves it. *)
Definition resolve (this : AsyncWebServer RF UF BF) (q : AsyncWebServerRequest)
  : AsyncWebServerRequest :=
  request (exec _rewriteRequest (mkWorld this q [])).

Definition attach (this : AsyncWebServer RF UF BF) (q : AsyncWebServerRequest)
  : AsyncWebServerRequest :=
  request (exec _attachHandler (mkWorld this q [])).

Definition route (this : AsyncWebServer RF UF BF) (q : AsyncWebServerRequest)
  : AsyncWebServerRequest :=
  request (exec dispatch (mkWorld this q [])).

End Configuration.
Arguments ServerOp : clear implicits.


(** ** The configuration calls with the objects they destroy *)
Module Owned.
Section Owned.
Import WebServer.
Context {RF UF BF : Type}.

Definition run_op (op : ServerOp RF UF BF) (m : Machine RF UF BF) : Machine RF UF BF :=
  match op with
  | OpAddRewrite r => exec (keeping (addRewrite r)) m
  | OpRemoveRewrite from_ to => exec (keeping (removeRewrite from_ to)) m
  | OpRemoveRewriteObj r => exec (keeping (removeRewrite_obj r)) m
  | OpAddHandler h => exec (keeping (addHandler h)) m
  | OpRemoveHandler p => exec (removeHandler_owned p) m
  | OpOnNotFound fn => exec (keeping (onNotFound fn)) m
  | OpOnFileUpload fn => exec (keeping (onFileUpload fn)) m
  | OpOnRequestBody fn => exec (keeping (onRequestBody fn)) m
  | OpReset => exec reset_owned m
  end.

Definition run_ops (ops : list (ServerOp RF UF BF)) (m : Machine RF UF BF)
  : Machine RF UF BF :=
  foldl (fun m' op => run_op op m') m ops.

(** The collection owns each of its objects once and does not own the
    catch-all. *)
Definition owns_once (this : AsyncWebServer RF UF BF) : Prop :=
  NoDup (self <$> _handlers this) /\ catchAll_apart this.

(** Nothing is amiss with the objects: the collection owns each of its
    objects once and not the catch-all, no object was destroyed twice, and
    no object the server still refers to was destroyed. *)
Definition sound (m : Machine RF UF BF) : Prop :=
  owns_once (members m)
  /\ NoDup (destroyed m)
  /\ (forall a, a ∈ destroyed m ->
        (a ∉ self <$> _handlers (members m))
        /\ a <> self (catchAllHandler (members m))).

(** [addHandler] is handed an object that is alive and that the server
    does not refer to yet. *)
Definition hands_over (m : Machine RF UF BF) (op : ServerOp RF UF BF) : Prop :=
  match op with
  | OpAddHandler h =>
      (self h ∉ self <$> _handlers (members m))
      /\ (self h ∉ destroyed m)
      /\ self h <> self (catchAllHandler (members m))
  | _ => True
  end.


(** The server with other answers of the catch-all to [filter] and
    [canHandle]. *)
Definition with_tests (f c : AsyncWebServerRequest -> bool)
    (this : AsyncWebServer RF UF BF) : AsyncWebServer RF UF BF :=
  set_catchAll
    (mkCallbackHandler (mkHandler (self (catchAllHandler this)) f c)
       (_onRequest (_catchAllHandler this)) (_onUpload (_catchAllHandler this))
       (_onBody (_catchAllHandler this)))
    this.

End Owned.
End Owned.

(** * Properties *)

(** ** The collection against the reference deque *)
Section ThreadSafeList_facts.
Context {T : Type}.
Implicit Types (this : ts.ThreadSafeList T) (d : ts.RefDeque T) (l : list T) (v : T).

Lemma last_of_cons l x : List.last l x = List.last (x :: l) x.
Proof. by destruct l. Qed.

Lemma pop_back_snoc l v : ts.pop_back (ts.mk (l ++ [v])) = (Some v, ts.mk l).
Proof.
  unfold ts.pop_back; cbn [ts.data_].
  destruct (l ++ [v]) as [|x rest] eqn:E; [by destruct l|].
  by rewrite last_of_cons, <- E, last_last, removelast_last.
Qed.

Lemma back_snoc l v : ts.back (ts.mk (l ++ [v])) = Some v.
Proof.
  unfold ts.back; cbn [ts.data_].
  destruct (l ++ [v]) as [|x rest] eqn:E; [by destruct l|].
  by rewrite last_of_cons, <- E, last_last.
Qed.

Lemma rev_cons_inv l v f : rev l = v :: f -> l = rev f ++ [v].
Proof. intros E. by rewrite <- (rev_involutive l), E. Qed.

Lemma rev_nil_inv l : rev l = [] -> l = [].
Proof. intros E. by rewrite <- (rev_involutive l), E. Qed.

(** One pop on the collection and on the reference, from related states:
    same result, related states. *)
Lemma pop_front_sim this d :
  ts.contents d = ts.data_ this ->
  (ts.pop_front this).1 = (ts.ref_pop_front d).1 /\
  ts.contents (ts.ref_pop_front d).2 = ts.data_ (ts.pop_front this).2.
Proof.
  destruct this as [l], d as [f b]; unfold ts.contents; cbn; intros <-.
  unfold ts.pop_front, ts.ref_pop_front; cbn.
  destruct f as [|v f]; cbn; [|done].
  destruct (rev b) as [|v f] eqn:E; cbn; [by rewrite E|].
  by rewrite app_nil_r.
Qed.

Lemma pop_back_sim this d :
  ts.contents d = ts.data_ this ->
  (ts.pop_back this).1 = (ts.ref_pop_back d).1 /\
  ts.contents (ts.ref_pop_back d).2 = ts.data_ (ts.pop_back this).2.
Proof.
  destruct this as [l], d as [f b]; unfold ts.contents;
    cbn [ts.fr ts.bk ts.data_]; intros <-.
  unfold ts.ref_pop_back; cbn [ts.fr ts.bk].
  destruct b as [|v b].
  - cbn [rev]. rewrite app_nil_r.
    destruct (rev f) as [|v b] eqn:E.
    + by apply rev_nil_inv in E as ->.
    + apply rev_cons_inv in E as ->. by rewrite pop_back_snoc.
  - cbn [rev]. by rewrite app_assoc, pop_back_snoc.
Qed.

Lemma run_simulation (ops : list (ts.Op T)) this d :
  ts.contents d = ts.data_ this ->
  (ts.run ops this).1 = (ts.ref_run ops d).1
  /\ ts.data_ (ts.run ops this).2 = ts.contents (ts.ref_run ops d).2.
Proof.
  revert this d.
  induction ops as [|[v|v| |] ops IH]; intros this d Hrel; cbn [ts.run ts.ref_run].
  - done.
  - apply IH. unfold ts.contents in *; cbn. by rewrite <- Hrel.
  - apply IH. unfold ts.contents in *; cbn. by rewrite <- Hrel, app_assoc.
  - destruct (pop_front_sim this d Hrel) as [Hr Hs].
    destruct (ts.pop_front this) as [r this'], (ts.ref_pop_front d) as [r' d'];
      cbn in Hr, Hs; subst r'.
    specialize (IH this' d' Hs).
    destruct (ts.run ops this'), (ts.ref_run ops d'); cbn in *.
    by destruct IH as [-> ->].
  - destruct (pop_back_sim this d Hrel) as [Hr Hs].
    destruct (ts.pop_back this) as [r this'], (ts.ref_pop_back d) as [r' d'];
      cbn in Hr, Hs; subst r'.
    specialize (IH this' d' Hs).
    destruct (ts.run ops this'), (ts.ref_run ops d'); cbn in *.
    by destruct IH as [-> ->].
Qed.

Lemma empty_data this : ts.empty this = true -> ts.data_ this = [].
Proof. unfold ts.empty. by destruct (ts.data_ this). Qed.

(** What a pop or an access returns was in the collection: the first
    element for the front, the last for the back. *)
Lemma front_value this v :
  (ts.pop_front this).1 = Some v \/ ts.front this = Some v ->
  exists rest, ts.data_ this = v :: rest.
Proof.
  unfold ts.pop_front, ts.front. destruct (ts.data_ this) as [|x rest]; cbn.
  - by intros [?|?].
  - intros [[= ->]|[= ->]]; eauto.
Qed.

Lemma back_value this v :
  (ts.pop_back this).1 = Some v \/ ts.back this = Some v ->
  exists rest, ts.data_ this = rest ++ [v].
Proof.
  destruct this as [l]. cbn [ts.data_].
  induction l as [|x rest _] using rev_ind.
  - cbn. by intros [?|?].
  - rewrite pop_back_snoc, back_snoc; cbn. intros [[= ->]|[= ->]]; eauto.
Qed.

(** C3.  Any sequence of [push_front], [push_back], [pop_front] and
    [pop_back] calls, run on the collection from any state and on the
    reference double-ended sequence from a state with the same contents,
    makes every pop return the same value or the same absence, and leaves
    the same contents.  On an empty collection [pop_front], [pop_back],
    [front] and [back] answer absence and leave the collection as it was;
    whenever one of them answers a value, that value is the element at that
    end of the collection. *)
Theorem deque_refinement (ops : list (ts.Op T)) this d :
  ts.contents d = ts.data_ this ->
  (ts.run ops this).1 = (ts.ref_run ops d).1
  /\ ts.data_ (ts.run ops this).2 = ts.contents (ts.ref_run ops d).2
  /\ (forall e : ts.ThreadSafeList T, ts.empty e = true ->
        ts.pop_front e = (None, e) /\ ts.pop_back e = (None, e)
        /\ ts.front e = None /\ ts.back e = None)
  /\ (forall x v, (ts.pop_front x).1 = Some v \/ ts.front x = Some v ->
        exists rest, ts.data_ x = v :: rest)
  /\ (forall x v, (ts.pop_back x).1 = Some v \/ ts.back x = Some v ->
        exists rest, ts.data_ x = rest ++ [v]).
Proof.
  intros Hrel. destruct (run_simulation ops this d Hrel) as [Hobs Hfinal].
  split; [done|]. split; [done|]. split; [|split].
  - intros e He%empty_data.
    unfold ts.pop_front, ts.pop_back, ts.front, ts.back. by rewrite He.
  - apply front_value.
  - apply back_value.
Qed.
End ThreadSafeList_facts.

Lemma deque_refinement_witness :
  let ops := [ts.PushBack 1; ts.PushFront 2; ts.PopBack; ts.PopBack; ts.PopBack;
              ts.PopBack; ts.PushBack 3; ts.PushBack 4; ts.PopFront] in
  let this := ts.mk [7] in
  let d := ts.mkRef [] [7] in
  ts.contents d = ts.data_ this
  /\ (ts.run ops this).1 = [Some 1; Some 7; Some 2; None; Some 3]
  /\ (ts.run ops this).1 = (ts.ref_run ops d).1
  /\ ts.data_ (ts.run ops this).2 = ts.contents (ts.ref_run ops d).2.
Proof.
  intros ops this d.
  split; [reflexivity|]. split; [reflexivity|].
  split; [apply (deque_refinement ops this d); reflexivity|].
  apply (deque_refinement ops this d); reflexivity.
Defined.

(** ** Erasing by value *)
Section Erase_facts.
Context {T : Type} (T_eq : T -> T -> bool).
Implicit Types (this : ts.ThreadSafeList T) (l : list T) (v value : T) (p : T -> bool).

Lemma std_find_if_spec p l :
  match ts.std_find_if p l with
  | Some it =>
      exists l1 x l2, l = l1 ++ x :: l2 /\ length l1 = it /\ p x = true
        /\ (forall y, y ∈ l1 -> p y = false)
  | None => forall y, y ∈ l -> p y = false
  end.
Proof.
  induction l as [|x l IH]; cbn.
  - intros y Hy. by apply elem_of_nil in Hy.
  - destruct (p x) eqn:Hx.
    + exists [], x, l. repeat split; [done|]. intros y Hy. by apply elem_of_nil in Hy.
    + destruct (ts.std_find_if p l) as [it|]; cbn.
      * destruct IH as (l1 & z & l2 & -> & Hlen & Hz & Hpre).
        exists (x :: l1), z, l2. repeat split; [by cbn; rewrite Hlen | done |].
        intros y [->|Hy]%elem_of_cons; auto.
      * intros y [->|Hy]%elem_of_cons; auto.
Qed.

Lemma std_remove_if_filter p l :
  ts.std_remove_if p l = List.filter (fun x => negb (p x)) l.
Proof. induction l as [|x l IH]; cbn; [done|]. destruct (p x); cbn; by rewrite IH. Qed.

Lemma equal_count_app value l1 l2 :
  ts.equal_count T_eq value (l1 ++ l2)
  = ts.equal_count T_eq value l1 + ts.equal_count T_eq value l2.
Proof. unfold ts.equal_count. by rewrite List.filter_app, length_app. Qed.

Lemma unequal_app value l1 l2 :
  ts.unequal T_eq value (l1 ++ l2)
  = ts.unequal T_eq value l1 ++ ts.unequal T_eq value l2.
Proof. apply List.filter_app. Qed.

Lemma equal_count_none value l :
  (forall y, y ∈ l -> T_eq y value = false) -> ts.equal_count T_eq value l = 0.
Proof.
  unfold ts.equal_count. induction l as [|x l IH]; cbn; [done|]. intros Hno.
  rewrite (Hno x) by apply list_elem_of_here.
  apply IH. intros y Hy. apply Hno. by apply list_elem_of_further.
Qed.

Lemma count_split value l :
  length (ts.unequal T_eq value l) + ts.equal_count T_eq value l = length l.
Proof.
  unfold ts.unequal, ts.equal_count. induction l as [|x l IH]; cbn; [done|].
  destruct (T_eq x value); cbn; lia.
Qed.

Lemma unequal_has_no_equal value l :
  ts.equal_count T_eq value (ts.unequal T_eq value l) = 0.
Proof.
  unfold ts.unequal, ts.equal_count. induction l as [|x l IH]; cbn; [done|].
  destruct (T_eq x value) eqn:E; cbn; [done|]. by rewrite E.
Qed.

(** C4.  In a collection that holds elements equal to [value] (one or
    several), [erase_first] removes the earliest of them and nothing else:
    the size goes down by exactly 1 and one equal element fewer remains.
    [erase] removes every element equal to [value]: the size goes down by
    exactly their number and none remains.  In both cases the elements not
    equal to [value] are the same, in the same order. *)
Theorem erase_first_one_erase_all value this :
  0 < ts.equal_count T_eq value (ts.data_ this) ->
  (exists l1 x l2,
      ts.data_ this = l1 ++ x :: l2
      /\ T_eq x value = true
      /\ (forall y, y ∈ l1 -> T_eq y value = false)
      /\ ts.data_ (ts.erase_first T_eq value this) = l1 ++ l2)
  /\ ts.size (ts.erase_first T_eq value this) + 1 = ts.size this
  /\ ts.equal_count T_eq value (ts.data_ (ts.erase_first T_eq value this)) + 1
     = ts.equal_count T_eq value (ts.data_ this)
  /\ ts.size (ts.erase T_eq value this) + ts.equal_count T_eq value (ts.data_ this)
     = ts.size this
  /\ ts.equal_count T_eq value (ts.data_ (ts.erase T_eq value this)) = 0
  /\ ts.unequal T_eq value (ts.data_ (ts.erase_first T_eq value this))
     = ts.unequal T_eq value (ts.data_ this)
  /\ ts.data_ (ts.erase T_eq value this) = ts.unequal T_eq value (ts.data_ this).
Proof.
  destruct this as [l]; cbn [ts.data_]. intros Hpos.
  assert (Hall : ts.data_ (ts.erase T_eq value (ts.mk l)) = ts.unequal T_eq value l)
    by apply std_remove_if_filter.
  unfold ts.erase_first, ts.std_find, ts.size; cbn [ts.data_].
  pose proof (std_find_if_spec (fun x => T_eq x value) l) as Hfind.
  destruct (ts.std_find_if _ l) as [it|].
  - destruct Hfind as (l1 & x & l2 & -> & <- & Hx & Hpre). cbn [ts.data_].
    rewrite delete_middle, Hall.
    assert (Hc : ts.equal_count T_eq value (x :: l2)
                 = S (ts.equal_count T_eq value l2))
      by (unfold ts.equal_count; cbn; by rewrite Hx).
    assert (Hu : ts.unequal T_eq value (x :: l2) = ts.unequal T_eq value l2)
      by (unfold ts.unequal; cbn; by rewrite Hx).
    repeat split.
    + exists l1, x, l2. done.
    + rewrite !length_app. cbn. lia.
    + rewrite !equal_count_app, Hc. lia.
    + apply count_split.
    + apply unequal_has_no_equal.
    + by rewrite !unequal_app, Hu.
  - exfalso. rewrite (equal_count_none value l Hfind) in Hpos. lia.
Qed.
End Erase_facts.

Lemma erase_first_one_erase_all_witness :
  let this := ts.mk [1; 2; 1; 3; 1] in
  0 < ts.equal_count Nat.eqb 1 (ts.data_ this)
  /\ ts.data_ (ts.erase_first Nat.eqb 1 this) = [2; 1; 3; 1]
  /\ ts.data_ (ts.erase Nat.eqb 1 this) = [2; 3]
  /\ ts.size (ts.erase_first Nat.eqb 1 this) + 1 = ts.size this
  /\ ts.size (ts.erase Nat.eqb 1 this) + ts.equal_count Nat.eqb 1 (ts.data_ this)
     = ts.size this.
Proof.
  intros this.
  assert (Hpos : 0 < ts.equal_count Nat.eqb 1 (ts.data_ this)) by (vm_compute; lia).
  split; [exact Hpos|]. split; [reflexivity|]. split; [reflexivity|].
  split; apply (erase_first_one_erase_all Nat.eqb 1 this Hpos).
Defined.

(** ** Loops that may return *)
Section Loops.
Context {St A R : Type}.
Implicit Types (body : nat -> A -> State St (option R)) (s : St).

Lemma for_iter_miss body it rest s :
  (forall i x, x ∈ rest -> body i x s = (None, s)) ->
  for_iter body it rest s = (None, s).
Proof.
  revert it. induction rest as [|x rest IH]; intros it Hmiss; cbn; [done|].
  unfold bind. rewrite (Hmiss it x) by apply list_elem_of_here.
  apply IH. intros i y Hy. apply Hmiss. by apply list_elem_of_further.
Qed.

Lemma for_iter_hit body it pre x post s v s' :
  (forall i y, y ∈ pre -> body i y s = (None, s)) ->
  body (it + length pre) x s = (Some v, s') ->
  for_iter body it (pre ++ x :: post) s = (Some v, s').
Proof.
  revert it. induction pre as [|y pre IH]; intros it Hmiss Hhit; cbn.
  - unfold bind. cbn in Hhit. rewrite Nat.add_0_r in Hhit. by rewrite Hhit.
  - unfold bind. rewrite (Hmiss it y) by apply list_elem_of_here.
    apply IH.
    + intros i z Hz. apply Hmiss. by apply list_elem_of_further.
    + cbn in Hhit. by rewrite Nat.add_succ_comm.
Qed.
End Loops.

(** A list splits at the first element a test accepts, or the test rejects
    all of it. *)
Lemma first_hit_split {A} (p : A -> bool) (l : list A) :
  (forall x, x ∈ l -> p x = false)
  \/ exists pre x post,
       l = pre ++ x :: post /\ (forall y, y ∈ pre -> p y = false) /\ p x = true.
Proof.
  induction l as [|x l IH].
  - left. intros x Hx. by apply elem_of_nil in Hx.
  - destruct (p x) eqn:Hx.
    + right. exists [], x, l. repeat split; [|done].
      intros y Hy. by apply elem_of_nil in Hy.
    + destruct IH as [Hall|(pre & z & post & -> & Hpre & Hz)].
      * left. intros y [->|Hy]%elem_of_cons; auto.
      * right. exists (x :: pre), z, post. repeat split; [|done].
        intros y [->|Hy]%elem_of_cons; auto.
Qed.

(** ** The registries *)
Section Registry_facts.
Import WebServer.
Context {RF UF BF : Type}.
Implicit Types (s this : AsyncWebServer RF UF BF) (w : World RF UF BF)
  (q : AsyncWebServerRequest) (r rw : AsyncWebRewrite) (h : AsyncWebHandler)
  (handler : addr).

Lemma same_rule_true (from_ to : string) r :
  String.eqb (from r) from_ && String.eqb (toUrl r) to = true <-> same_rule from_ to r.
Proof. unfold same_rule. by rewrite andb_true_iff, !String.eqb_eq. Qed.

Lemma same_rule_false (from_ to : string) r :
  String.eqb (from r) from_ && String.eqb (toUrl r) to = false <-> ~ same_rule from_ to r.
Proof.
  rewrite <- same_rule_true.
  by destruct (String.eqb (from r) from_ && String.eqb (toUrl r) to).
Qed.

Lemma removeRewrite_miss (from_ to : string) s :
  (forall r, r ∈ _rewrites s -> ~ same_rule from_ to r) ->
  removeRewrite from_ to s = (false, s).
Proof.
  intros Hmiss. unfold removeRewrite, bind, gets.
  rewrite for_iter_miss; [done|].
  intros i x Hx. by rewrite (proj2 (same_rule_false _ _ _) (Hmiss x Hx)).
Qed.

Lemma removeRewrite_hit (from_ to : string) s pre r post :
  _rewrites s = pre ++ r :: post ->
  (forall r', r' ∈ pre -> ~ same_rule from_ to r') ->
  same_rule from_ to r ->
  removeRewrite from_ to s = (true, set_rewrites (pre ++ post) s).
Proof.
  intros Hsplit Hpre Hr. unfold removeRewrite, bind, gets. rewrite Hsplit.
  erewrite for_iter_hit; [done| |].
  - intros i x Hx. by rewrite (proj2 (same_rule_false _ _ _) (Hpre x Hx)).
  - apply same_rule_true in Hr. rewrite Hr.
    unfold bind, modify, ret. cbn. by rewrite Hsplit, delete_middle.
Qed.

Lemma removeRewrite_true_iff (from_ to : string) s :
  eval (removeRewrite from_ to) s = true
  <-> exists r, r ∈ _rewrites s /\ same_rule from_ to r.
Proof.
  unfold eval.
  destruct (first_hit_split
              (fun r => String.eqb (from r) from_ && String.eqb (toUrl r) to)
              (_rewrites s)) as [Hall|(pre & r & post & Hsplit & Hpre & Hr)].
  - rewrite removeRewrite_miss by (intros r Hr; apply same_rule_false; by apply Hall).
    split; [done|]. intros (r & Hr & Hsame).
    apply same_rule_true in Hsame. by rewrite (Hall r Hr) in Hsame.
  - rewrite (removeRewrite_hit _ _ _ pre r post Hsplit).
    + split; [|done]. intros _. exists r. split; [|by apply same_rule_true].
      rewrite Hsplit. apply elem_of_app. right. apply list_elem_of_here.
    + intros r' Hr'. apply same_rule_false. by apply Hpre.
    + by apply same_rule_true.
Qed.

Lemma removeHandler_owned_miss handler (m : Machine RF UF BF) :
  (forall h, h ∈ _handlers (members m) -> self h <> handler) ->
  removeHandler_owned handler m = (false, m).
Proof.
  intros Hmiss. unfold removeHandler_owned, bind, gets.
  rewrite for_iter_miss; [done|].
  intros i x Hx. by rewrite (proj2 (Nat.eqb_neq _ _) (Hmiss x Hx)).
Qed.

Lemma removeHandler_owned_hit handler (m : Machine RF UF BF) pre h post :
  _handlers (members m) = pre ++ h :: post ->
  (forall h', h' ∈ pre -> self h' <> handler) ->
  self h = handler ->
  removeHandler_owned handler m
  = (true, mkMachine (set_handlers (pre ++ post) (members m))
             (destroyed m ++ [handler])).
Proof.
  intros Hsplit Hpre Hh. unfold removeHandler_owned, bind, gets. rewrite Hsplit.
  erewrite for_iter_hit; [done| |].
  - intros i x Hx. by rewrite (proj2 (Nat.eqb_neq _ _) (Hpre x Hx)).
  - rewrite (proj2 (Nat.eqb_eq _ _) Hh).
    unfold bind, erase, modify, ret. cbn [fst snd Nat.add].
    by rewrite Hsplit, list_lookup_middle, delete_middle, Hh.
Qed.

Lemma removeHandler_miss handler s :
  (forall h, h ∈ _handlers s -> self h <> handler) ->
  removeHandler handler s = (false, s).
Proof.
  intros Hmiss. unfold removeHandler.
  by rewrite removeHandler_owned_miss.
Qed.

Lemma removeHandler_hit handler s pre h post :
  _handlers s = pre ++ h :: post ->
  (forall h', h' ∈ pre -> self h' <> handler) ->
  self h = handler ->
  removeHandler handler s = (true, set_handlers (pre ++ post) s).
Proof.
  intros Hsplit Hpre Hh. unfold removeHandler.
  by rewrite (removeHandler_owned_hit _ _ pre h post).
Qed.

Lemma removeHandler_cases handler s :
  removeHandler handler s = (false, s)
  \/ exists pre h post,
       _handlers s = pre ++ h :: post /\ self h = handler
       /\ removeHandler handler s = (true, set_handlers (pre ++ post) s).
Proof.
  destruct (first_hit_split (fun h => Nat.eqb (self h) handler) (_handlers s))
    as [Hall|(pre & h & post & Hsplit & Hpre & Hh)].
  - left. apply removeHandler_miss. intros h Hh. apply Nat.eqb_neq. by apply Hall.
  - right. exists pre, h, post. apply Nat.eqb_eq in Hh.
    split; [done|]. split; [done|].
    apply (removeHandler_hit _ _ pre h post); [done| |done].
    intros h' Hh'. apply Nat.eqb_neq. by apply Hpre.
Qed.

Lemma removeHandler_true_iff handler s :
  eval (removeHandler handler) s = true
  <-> exists h, h ∈ _handlers s /\ self h = handler.
Proof.
  unfold eval.
  destruct (first_hit_split (fun h => Nat.eqb (self h) handler) (_handlers s))
    as [Hall|(pre & h & post & Hsplit & Hpre & Hh)].
  - rewrite removeHandler_miss by (intros h Hh; apply Nat.eqb_neq; by apply Hall).
    split; [done|]. intros (h & Hh & Hsame).
    apply Nat.eqb_eq in Hsame. by rewrite (Hall h Hh) in Hsame.
  - apply Nat.eqb_eq in Hh. rewrite (removeHandler_hit _ _ pre h post Hsplit).
    + split; [|done]. intros _. exists h. split; [|done].
      rewrite Hsplit. apply elem_of_app. right. apply list_elem_of_here.
    + intros h' Hh'. apply Nat.eqb_neq. by apply Hpre.
    + done.
Qed.

(** C6.  [removeRewrite(from, to)] and [removeHandler(handler)] always
    return a boolean.  When no entry matches they return [false], the
    server is unchanged and nothing is destroyed.  When [pre ++ x :: post]
    is the registry and [x] is its first matching entry they return
    [true]; the registry read back afterwards is [pre ++ post], the other
    entries in their order, and the other registry is as it was;
    [removeHandler] destroys the handler of the erased entry and nothing
    else.  The result is [true] exactly when a matching entry exists. *)
Theorem remove_absent_or_first (from_ to : string) handler s :
  ((forall r, r ∈ _rewrites s -> ~ same_rule from_ to r) ->
     removeRewrite from_ to s = (false, s))
  /\ (forall pre r post,
        _rewrites s = pre ++ r :: post ->
        (forall r', r' ∈ pre -> ~ same_rule from_ to r') ->
        same_rule from_ to r ->
        removeRewrite from_ to s = (true, set_rewrites (pre ++ post) s)
        /\ _rewrites (exec (removeRewrite from_ to) s) = pre ++ post
        /\ _handlers (exec (removeRewrite from_ to) s) = _handlers s
        /\ _catchAllHandler (exec (removeRewrite from_ to) s) = _catchAllHandler s)
  /\ (eval (removeRewrite from_ to) s = true
      <-> exists r, r ∈ _rewrites s /\ same_rule from_ to r)
  /\ ((forall h, h ∈ _handlers s -> self h <> handler) ->
        removeHandler handler s = (false, s)
        /\ forall gone,
             removeHandler_owned handler (mkMachine s gone) = (false, mkMachine s gone))
  /\ (forall pre h post,
        _handlers s = pre ++ h :: post ->
        (forall h', h' ∈ pre -> self h' <> handler) ->
        self h = handler ->
        removeHandler handler s = (true, set_handlers (pre ++ post) s)
        /\ _handlers (exec (removeHandler handler) s) = pre ++ post
        /\ _rewrites (exec (removeHandler handler) s) = _rewrites s
        /\ forall gone,
             let m' := exec (removeHandler_owned handler) (mkMachine s gone) in
             eval (removeHandler_owned handler) (mkMachine s gone) = true
             /\ _handlers (members m') = pre ++ post
             /\ _rewrites (members m') = _rewrites s
             /\ _catchAllHandler (members m') = _catchAllHandler s
             /\ destroyed m' = gone ++ [handler])
  /\ (eval (removeHandler handler) s = true
      <-> exists h, h ∈ _handlers s /\ self h = handler).
Proof.
  split; [apply removeRewrite_miss|].
  split.
  { intros pre r post Hsplit Hpre Hr. unfold exec.
    by rewrite (removeRewrite_hit _ _ _ pre r post Hsplit Hpre Hr). }
  split; [apply removeRewrite_true_iff|].
  split.
  { intros Hmiss. split; [by apply removeHandler_miss|].
    intros gone. by apply removeHandler_owned_miss. }
  split.
  { intros pre h post Hsplit Hpre Hh. unfold exec.
    rewrite (removeHandler_hit _ _ pre h post Hsplit Hpre Hh).
    do 3 (split; [done|]). intros gone. unfold eval, exec.
    by rewrite (removeHandler_owned_hit _ (mkMachine s gone) pre h post Hsplit Hpre Hh). }
  apply removeHandler_true_iff.
Qed.

(** C9.  [removeRewrite] called with a rule object searches by the object's
    two strings: it removes the first registered rule whose from-pattern
    and to-URL equal those of the object, so that the registry read back
    afterwards is the rules before it followed by the rules after it, and
    returns [true] exactly when such a rule is registered.  The object
    itself need not be registered and the rule removed need not be that
    object. *)
Theorem removeRewrite_by_value rw s :
  (forall pre r post,
      _rewrites s = pre ++ r :: post ->
      (forall r', r' ∈ pre -> ~ (from r' = from rw /\ toUrl r' = toUrl rw)) ->
      from r = from rw /\ toUrl r = toUrl rw ->
      removeRewrite_obj rw s = (true, set_rewrites (pre ++ post) s)
      /\ eval (removeRewrite_obj rw) s = true
      /\ _rewrites (exec (removeRewrite_obj rw) s) = pre ++ post
      /\ _handlers (exec (removeRewrite_obj rw) s) = _handlers s
      /\ _catchAllHandler (exec (removeRewrite_obj rw) s) = _catchAllHandler s)
  /\ (eval (removeRewrite_obj rw) s = true
      <-> exists r, r ∈ _rewrites s /\ from r = from rw /\ toUrl r = toUrl rw)
  /\ ((forall r, r ∈ _rewrites s -> ~ (from r = from rw /\ toUrl r = toUrl rw)) ->
      removeRewrite_obj rw s = (false, s)).
Proof.
  unfold removeRewrite_obj.
  split.
  { intros pre r post Hsplit Hpre Hr. unfold eval, exec.
    by rewrite (removeRewrite_hit _ _ _ pre r post Hsplit Hpre Hr). }
  split; [apply removeRewrite_true_iff|].
  apply removeRewrite_miss.
Qed.
End Registry_facts.

(** ** What the applied rules leave in the request *)
Section Resolution_facts.
Import WebServer.
Implicit Types (q : AsyncWebServerRequest) (r : AsyncWebRewrite)
  (rs hits : list AsyncWebRewrite) (k v : string).

Lemma applied_sublist rs q : sublist (applied rs q) rs.
Proof.
  revert q. induction rs as [|r rs IH]; intros q; cbn; [constructor|].
  destruct (match_ r q); by constructor.
Qed.

Lemma applied_none rs q :
  (forall r, r ∈ rs -> match_ r q = false) -> applied rs q = [].
Proof.
  induction rs as [|r rs IH]; intros Hno; cbn; [done|].
  rewrite (Hno r) by apply list_elem_of_here.
  apply IH. intros r' Hr'. apply Hno. by apply list_elem_of_further.
Qed.

(** When no matcher looks at what a rule rewrites, the applied rules are
    the rules that match the request as it came in. *)
Lemma applied_stable rs q :
  (forall r r0 q0, r ∈ rs -> match_ r (apply_rule r0 q0) = match_ r q0) ->
  applied rs q = List.filter (fun r => match_ r q) rs.
Proof.
  revert q. induction rs as [|r rs IH]; intros q Hst; cbn; [done|].
  assert (Hst' : forall r' r0 q0, r' ∈ rs ->
                   match_ r' (apply_rule r0 q0) = match_ r' q0).
  { intros r' r0 q0 Hr'. apply Hst. by apply list_elem_of_further. }
  destruct (match_ r q).
  - rewrite (IH _ Hst'). f_equal. apply List.filter_ext_in.
    intros r' Hr'. apply Hst. apply list_elem_of_further. by apply list_elem_of_In.
  - by apply IH.
Qed.

Lemma apply_all_cons q r hits :
  apply_all q (r :: hits) = apply_all (apply_rule r q) hits.
Proof. done. Qed.

Lemma apply_all_url q hits :
  _url (apply_all q hits)
  = match last hits with Some r => toUrl r | None => _url q end.
Proof.
  revert q. induction hits as [|r hits IH]; intros q; [done|].
  rewrite apply_all_cons, IH, (last_cons r hits). by destruct (last hits).
Qed.

Lemma apply_all_handler q hits : _handler (apply_all q hits) = _handler q.
Proof.
  revert q. induction hits as [|r hits IH]; intros q; [done|].
  by rewrite apply_all_cons, IH.
Qed.

Lemma apply_all_params q hits :
  _params (apply_all q hits) = _params q ++ concat (map params hits).
Proof.
  revert q. induction hits as [|r hits IH]; intros q.
  - cbn. by rewrite app_nil_r.
  - rewrite apply_all_cons, IH. cbn. by rewrite app_assoc.
Qed.

End Resolution_facts.

(** ** The two phases of a dispatch *)
Section Dispatch_facts.
Import WebServer.
Context {RF UF BF : Type}.
Implicit Types (s this : AsyncWebServer RF UF BF) (w : World RF UF BF)
  (q : AsyncWebServerRequest) (r rw : AsyncWebRewrite) (h : AsyncWebHandler)
  (log : list addr).

Lemma rewrite_body_run r w :
  (m <- ask (match_ r) ;;
   if m then
     assign_url (toUrl r) ;;
     _addGetParams (params r) ;;
     ret (None (A := unit))
   else ret None) w
  = (None,
     if match_ r (request w)
     then mkWorld (server w) (apply_rule r (request w)) (assigned w)
     else w).
Proof.
  unfold bind, ask, gets, ret, assign_url, _addGetParams, modify, apply_rule.
  by destruct (match_ r (request w)).
Qed.

Lemma rewrite_loop rs it s q log :
  for_iter (R := unit) (fun _ r =>
      m <- ask (match_ r) ;;
      if m then
        assign_url (toUrl r) ;;
        _addGetParams (params r) ;;
        ret None
      else ret None) it rs (mkWorld s q log)
  = (None, mkWorld s (resolved rs q) log).
Proof.
  revert it q. induction rs as [|r rs IH]; intros it q; cbn [for_iter]; [done|].
  unfold bind at 1. rewrite rewrite_body_run. cbn [request server assigned].
  unfold resolved. cbn [applied].
  destruct (match_ r q); by rewrite IH.
Qed.

Lemma rewriteRequest_run w :
  _rewriteRequest w
  = (tt, mkWorld (server w) (resolved (_rewrites (server w)) (request w)) (assigned w)).
Proof.
  destruct w as [s q log].
  unfold _rewriteRequest, bind, gets; cbn [server request assigned].
  by rewrite rewrite_loop.
Qed.

Lemma attach_body_run h w :
  (f <- ask (filter h) ;;
   if f then
     c <- ask (canHandle h) ;;
     if c then setHandler (self h) ;; ret (Some tt)
     else ret None
   else ret None) w
  = if accepts (request w) h
    then (Some tt, exec (setHandler (self h)) w)
    else (None, w).
Proof.
  unfold accepts, bind, ask, gets, ret, exec, setHandler, modify.
  destruct (filter h (request w)); [|done]. by destruct (canHandle h (request w)).
Qed.

Lemma attachHandler_miss w :
  (forall h, h ∈ _handlers (server w) -> accepts (request w) h = false) ->
  _attachHandler w = (tt, exec (setHandler (self (catchAllHandler (server w)))) w).
Proof.
  intros Hmiss. unfold _attachHandler. unfold bind at 1. unfold gets at 1.
  unfold bind at 1. rewrite for_iter_miss; [done|].
  intros i h Hh. by rewrite attach_body_run, (Hmiss h Hh).
Qed.

Lemma attachHandler_hit w pre h post :
  _handlers (server w) = pre ++ h :: post ->
  (forall h', h' ∈ pre -> accepts (request w) h' = false) ->
  accepts (request w) h = true ->
  _attachHandler w = (tt, exec (setHandler (self h)) w).
Proof.
  intros Hsplit Hpre Hh. unfold _attachHandler. unfold bind at 1. unfold gets at 1.
  unfold bind at 1. rewrite Hsplit.
  erewrite for_iter_hit; [done| |].
  - intros i x Hx. by rewrite attach_body_run, (Hpre x Hx).
  - by rewrite attach_body_run, Hh.
Qed.

(** Selection ends in one [setHandler] call, on a registered handler or on
    the catch-all. *)
Lemma attachHandler_cases w :
  exists p,
    _attachHandler w = (tt, exec (setHandler p) w)
    /\ (p = self (catchAllHandler (server w))
        \/ exists h, h ∈ _handlers (server w) /\ self h = p).
Proof.
  destruct (first_hit_split (accepts (request w)) (_handlers (server w)))
    as [Hall|(pre & h & post & Hsplit & Hpre & Hh)].
  - exists (self (catchAllHandler (server w))). split; [|by left].
    by apply attachHandler_miss.
  - exists (self h). split; [by apply (attachHandler_hit w pre h post)|].
    right. exists h. split; [|done].
    rewrite Hsplit. apply elem_of_app. right. apply list_elem_of_here.
Qed.

(** C1, as the code has it.  Resolution goes through the rules once, in
    registration order, tests each rule on the request as the rules applied
    before it left it, and applies the rules whose matcher succeeds then,
    and no other rule.  The URL left is the to-URL of the last rule
    applied; the parameters left are those the request came with followed
    by those of every applied rule, in the order applied (merge, not
    replace).  For a registry of two rules R1, R2 where R1 matches the
    request as it came in: when R2 matches the request as R1 left it, the
    URL is R2's and the parameters are the incoming ones, then R1's, then
    R2's; when it does not, the URL and the added parameters are R1's,
    whether or not R2 matches the request as it came in.  When no matcher
    looks at what rewriting changes, the applied rules are all the rules
    that match the request as it came in. *)
Theorem rewrite_last_applied_wins w :
  let rs := _rewrites (server w) in
  let hits := applied rs (request w) in
  let q' := request (exec _rewriteRequest w) in
  sublist hits rs
  /\ q' = apply_all (request w) hits
  /\ _url q' = match last hits with Some r => toUrl r | None => _url (request w) end
  /\ _params q' = _params (request w) ++ concat (map params hits)
  /\ _handler q' = _handler (request w)
  /\ (rs = [] -> q' = request w)
  /\ (forall r rs',
        rs = r :: rs' ->
        q' = request (exec _rewriteRequest
                        (mkWorld (set_rewrites rs' (server w))
                           (if match_ r (request w) then apply_rule r (request w)
                            else request w)
                           (assigned w))))
  /\ (forall R1 R2,
        rs = [R1; R2] ->
        match_ R1 (request w) = true ->
        (match_ R2 (apply_rule R1 (request w)) = true ->
         _url q' = toUrl R2
         /\ _params q' = _params (request w) ++ params R1 ++ params R2)
        /\ (match_ R2 (apply_rule R1 (request w)) = false ->
            _url q' = toUrl R1
            /\ _params q' = _params (request w) ++ params R1))
  /\ ((forall r r0 q0, r ∈ rs -> match_ r (apply_rule r0 q0) = match_ r q0) ->
      hits = List.filter (fun r => match_ r (request w)) rs).
Proof.
  intros rs hits q'.
  assert (Hq : q' = apply_all (request w) hits).
  { subst q'. unfold exec. by rewrite rewriteRequest_run. }
  split; [apply applied_sublist|]. split; [done|].
  split; [rewrite Hq; apply apply_all_url|].
  split; [rewrite Hq; apply apply_all_params|].
  split; [rewrite Hq; apply apply_all_handler|].
  split; [|split; [|split]].
  - intros Hnil. rewrite Hq. subst hits. by rewrite Hnil.
  - intros r rs' Hcons. rewrite Hq. subst hits. rewrite Hcons.
    unfold exec. rewrite rewriteRequest_run. cbn [request server snd _rewrites
      set_rewrites]. unfold resolved. cbn [applied].
    by destruct (match_ r (request w)).
  - intros R1 R2 Hreg H1. rewrite Hq. subst hits. rewrite Hreg.
    cbn [applied]. rewrite H1. split; intros H2; rewrite H2; cbn.
    + split; [done|]. by rewrite <- app_assoc.
    + by split.
  - apply applied_stable.
Qed.

(** C10.  Resolution never changes the server, hence not the rewrite
    registry, however many rules match; and when no registered rule's
    matcher succeeds on the request, it leaves the request as it was, URL
    and parameter map included. *)
Theorem rewrite_frame w :
  server (exec _rewriteRequest w) = server w
  /\ assigned (exec _rewriteRequest w) = assigned w
  /\ ((forall r, r ∈ _rewrites (server w) -> match_ r (request w) = false) ->
      request (exec _rewriteRequest w) = request w).
Proof.
  unfold exec. rewrite rewriteRequest_run. cbn.
  split; [done|]. split; [done|].
  intros Hno. unfold resolved. by rewrite (applied_none _ _ Hno).
Qed.

(** C2.  Selection binds the first handler, in registration order, that
    accepts the request ([filter] and [canHandle] both succeed); when no
    registered handler accepts it, it binds the catch-all.  Selection
    leaves the server as it was, so two selections that both fall through
    bind the same catch-all instance. *)
Theorem attach_first_match w :
  (forall pre h post,
      _handlers (server w) = pre ++ h :: post ->
      (forall h', h' ∈ pre -> accepts (request w) h' = false) ->
      accepts (request w) h = true ->
      _handler (request (exec _attachHandler w)) = Some (self h))
  /\ ((forall h, h ∈ _handlers (server w) -> accepts (request w) h = false) ->
      _handler (request (exec _attachHandler w))
      = Some (self (catchAllHandler (server w))))
  /\ server (exec _attachHandler w) = server w
  /\ (forall q2,
        (forall h, h ∈ _handlers (server w) -> accepts (request w) h = false) ->
        (forall h, h ∈ _handlers (server w) -> accepts q2 h = false) ->
        let w1 := exec _attachHandler w in
        let w2 := exec _attachHandler (mkWorld (server w1) q2 (assigned w1)) in
        _handler (request w2) = _handler (request w1)).
Proof.
  assert (Hserver : server (exec _attachHandler w) = server w).
  { destruct (attachHandler_cases w) as (p & Hrun & _). unfold exec. by rewrite Hrun. }
  split; [|split; [|split]].
  - intros pre h post Hsplit Hpre Hh. unfold exec.
    by rewrite (attachHandler_hit w pre h post).
  - intros Hmiss. unfold exec. by rewrite attachHandler_miss.
  - done.
  - intros q2 Hmiss Hmiss2 w1 w2. subst w2 w1. rewrite Hserver.
    unfold exec. rewrite (attachHandler_miss w Hmiss).
    by rewrite attachHandler_miss.
Qed.

(** C7.  Whatever the request and the handler registry, selection makes
    exactly one [setHandler] call on the request; its argument, which is
    what the request's handler field then holds, is not null: it is the
    address of a registered handler or of the catch-all.  The same holds of
    a whole dispatch, whose first phase makes no such call. *)
Theorem attach_binds_once w :
  (exists p,
      assigned (exec _attachHandler w) = assigned w ++ [p]
      /\ _handler (request (exec _attachHandler w)) = Some p
      /\ (p = self (catchAllHandler (server w))
          \/ exists h, h ∈ _handlers (server w) /\ self h = p))
  /\ (exists p,
        assigned (exec dispatch w) = assigned w ++ [p]
        /\ _handler (request (exec dispatch w)) = Some p
        /\ (p = self (catchAllHandler (server w))
            \/ exists h, h ∈ _handlers (server w) /\ self h = p)).
Proof.
  split.
  - destruct (attachHandler_cases w) as (p & Hrun & Hwho).
    exists p. unfold exec. by rewrite Hrun.
  - unfold exec, dispatch, bind. rewrite rewriteRequest_run.
    set (w1 := mkWorld _ _ _).
    destruct (attachHandler_cases w1) as (p & Hrun & Hwho).
    exists p. by rewrite Hrun.
Qed.

End Dispatch_facts.

(** ** The statements on the small configuration *)

(** Membership in a list written out: one case per element. *)
Ltac each_member H :=
  repeat (apply elem_of_cons in H as [->|H]; [try done|]);
  try (by apply elem_of_nil in H).

Lemma rewrite_last_applied_wins_witness :
  let w := WebServer.mkWorld demo.srv demo.req [] in
  let q' := WebServer.request (exec WebServer._rewriteRequest w) in
  let wf := WebServer.mkWorld demo.srv_fixed demo.req [] in
  (WebServer.match_ demo.R1 (WebServer.request w) = true
   /\ WebServer.match_ demo.R2 (WebServer.apply_rule demo.R1 (WebServer.request w))
      = true)
  /\ WebServer._url q' = "/B"%string
  /\ WebServer._params q'
     = [("z", "0"); ("p", "0"); ("p", "1"); ("q", "x"); ("p", "2")]%string
  /\ WebServer.applied (WebServer._rewrites demo.srv_fixed) demo.req
     = [demo.Ra; demo.Rc]
  /\ WebServer._url (WebServer.request (exec WebServer._rewriteRequest wf))
     = "/three"%string.
Proof.
  intros w q' wf.
  destruct (rewrite_last_applied_wins w) as (_ & _ & _ & _ & _ & _ & _ & Htwo & _).
  destruct (proj1 (Htwo demo.R1 demo.R2 eq_refl eq_refl) eq_refl) as (Hurl & Hall).
  destruct (rewrite_last_applied_wins wf)
    as (_ & _ & Hlast & _ & _ & _ & _ & _ & Hfixed).
  split; [split; reflexivity|].
  split; [exact Hurl|].
  split; [exact Hall|].
  split; [|exact Hlast].
  apply Hfixed. intros r r0 q0 Hr. cbn in Hr. each_member Hr.
Defined.

(** C1 does not hold of every pair of matching rules: both [demo.Sa] and
    [demo.Sb] match the request for ["/a"] as it comes in, but once
    [demo.Sa] has rewritten the URL [demo.Sb] no longer matches, and the
    URL and parameter of the earlier rule persist.  And where both rules
    of a chain are applied, the binding the earlier rule gave to a key is
    still there beside the later one. *)
Lemma both_match_first_persists :
  let both := WebServer.mkServer [demo.Sa; demo.Sb] [] demo.fresh in
  let q := WebServer.mkRequest "/a" [] None in
  let q' := WebServer.request (exec WebServer._rewriteRequest
                                 (WebServer.mkWorld both q [])) in
  let q2 := WebServer.request (exec WebServer._rewriteRequest
                                 (WebServer.mkWorld demo.srv demo.req [])) in
  WebServer.match_ demo.Sa q = true
  /\ WebServer.match_ demo.Sb q = true
  /\ WebServer._url q' = "/A"%string
  /\ WebServer._url q' <> WebServer.toUrl demo.Sb
  /\ WebServer._params q' = [("p", "1")]%string
  /\ (("p", "1") ∈ WebServer._params q2 /\ ("p", "2") ∈ WebServer._params q2)%string
  /\ ~ (forall (R1 R2 : WebServer.AsyncWebRewrite) (q0 : WebServer.AsyncWebServerRequest),
          WebServer.match_ R1 q0 = true ->
          WebServer.match_ R2 q0 = true ->
          WebServer._url (resolve (WebServer.mkServer [R1; R2] [] demo.fresh) q0)
          = WebServer.toUrl R2).
Proof.
  intros both q q' q2. do 3 (split; [reflexivity|]). split; [discriminate|].
  split; [reflexivity|]. split; [cbn; split|].
  - do 2 apply list_elem_of_further. apply list_elem_of_here.
  - do 4 apply list_elem_of_further. apply list_elem_of_here.
  - intros Hall. specialize (Hall demo.Sa demo.Sb q eq_refl eq_refl).
    discriminate Hall.
Qed.

Lemma rewrite_frame_witness :
  let w := WebServer.mkWorld demo.srv demo.req_other [] in
  (forall r, r ∈ WebServer._rewrites (WebServer.server w) ->
     WebServer.match_ r (WebServer.request w) = false)
  /\ WebServer.request (exec WebServer._rewriteRequest w) = demo.req_other
  /\ WebServer.server (exec WebServer._rewriteRequest w) = demo.srv.
Proof.
  intros w.
  assert (Hno : forall r, r ∈ WebServer._rewrites (WebServer.server w) ->
                  WebServer.match_ r (WebServer.request w) = false).
  { intros r Hr. cbn in Hr. each_member Hr. }
  split; [exact Hno|].
  split; [exact (proj2 (proj2 (rewrite_frame w)) Hno)|exact (proj1 (rewrite_frame w))].
Defined.

Lemma attach_first_match_witness :
  let w := WebServer.mkWorld demo.srv (WebServer.mkRequest "/B" [] None) [] in
  let w' :=
    WebServer.mkWorld (WebServer.mkServer [] [demo.H1] demo.fresh)
      (WebServer.mkRequest "/B" [] None) [] in
  WebServer._handler (WebServer.request (exec WebServer._attachHandler w))
  = Some (WebServer.self demo.H2)
  /\ WebServer._handler (WebServer.request (exec WebServer._attachHandler w'))
     = Some (WebServer.self (WebServer.base demo.fresh)).
Proof.
  intros w w'. split.
  - apply (proj1 (attach_first_match w) [demo.H1] demo.H2 [demo.H3]);
      [reflexivity| |reflexivity].
    intros h Hh. each_member Hh.
  - apply (proj1 (proj2 (attach_first_match w'))).
    intros h Hh. cbn in Hh. each_member Hh.
Defined.

Lemma remove_absent_or_first_witness :
  (WebServer.removeRewrite "/A" "/B" demo.srv_dup
   = (true, WebServer.set_rewrites [demo.R1; demo.R2b] demo.srv_dup)
   /\ WebServer._rewrites (exec (WebServer.removeRewrite "/A" "/B") demo.srv_dup)
      = [demo.R1; demo.R2b]
   /\ WebServer._handlers (exec (WebServer.removeRewrite "/A" "/B") demo.srv_dup)
      = [demo.H2; demo.H1; demo.H3; demo.H1])
  /\ WebServer.removeRewrite "/A" "/nowhere" demo.srv_dup = (false, demo.srv_dup)
  /\ (WebServer.removeHandler 12 demo.srv
      = (true, WebServer.set_handlers [demo.H1; demo.H3] demo.srv)
      /\ WebServer._handlers (exec (WebServer.removeHandler 12) demo.srv)
         = [demo.H1; demo.H3]
      /\ WebServer._rewrites (exec (WebServer.removeHandler 12) demo.srv)
         = [demo.R1; demo.R2]
      /\ WebServer.destroyed
           (exec (WebServer.removeHandler_owned 12) (WebServer.mkMachine demo.srv []))
         = [12])
  /\ (WebServer.removeHandler 99 demo.srv = (false, demo.srv)
      /\ WebServer.removeHandler_owned 99 (WebServer.mkMachine demo.srv [])
         = (false, WebServer.mkMachine demo.srv [])).
Proof.
  split; [|split; [|split]].
  - destruct (proj1 (proj2 (remove_absent_or_first "/A" "/B" 0 demo.srv_dup))
                [demo.R1] demo.R2 [demo.R2b]) as (Hrun & Hrules & Hhandlers & _);
      [reflexivity| |by split|].
    + intros r Hr. each_member Hr. by intros [? _].
    + split; [exact Hrun|]. split; [exact Hrules|exact Hhandlers].
  - apply (proj1 (remove_absent_or_first "/A" "/nowhere" 0 demo.srv_dup)).
    intros r Hr. cbn in Hr. each_member Hr; by intros [_ ?].
  - destruct (proj1 (proj2 (proj2 (proj2 (proj2
                (remove_absent_or_first "" "" 12 demo.srv)))))
                [demo.H1] demo.H2 [demo.H3]) as (Hrun & Hhandlers & Hrules & Howned);
      [reflexivity| |reflexivity|].
    + intros h Hh. each_member Hh.
    + split; [exact Hrun|]. split; [exact Hhandlers|]. split; [exact Hrules|].
      apply (Howned []).
  - destruct (proj1 (proj2 (proj2 (proj2
                (remove_absent_or_first "" "" 99 demo.srv))))) as (Hrun & Howned).
    + intros h Hh. cbn in Hh. each_member Hh.
    + split; [exact Hrun|apply (Howned [])].
Defined.

Lemma removeRewrite_by_value_witness :
  (demo.probe ∉ WebServer._rewrites demo.srv_dup)
  /\ demo.R2 <> demo.probe
  /\ WebServer.removeRewrite_obj demo.probe demo.srv_dup
     = (true, WebServer.set_rewrites [demo.R1; demo.R2b] demo.srv_dup)
  /\ WebServer._rewrites (exec (WebServer.removeRewrite_obj demo.probe) demo.srv_dup)
     = [demo.R1; demo.R2b]
  /\ length (WebServer._rewrites
               (exec (WebServer.removeRewrite_obj demo.probe) demo.srv_dup)) = 2.
Proof.
  destruct (proj1 (removeRewrite_by_value demo.probe demo.srv_dup)
              [demo.R1] demo.R2 [demo.R2b]) as (Hrun & _ & Hrules & _);
    [reflexivity| |by split|].
  { intros r Hr. each_member Hr. by intros [? _]. }
  split; [|split; [|split; [exact Hrun|split; [exact Hrules|]]]].
  - intros Hin. cbn in Hin.
    repeat (apply elem_of_cons in Hin as [Heq|Hin]; [by cbv in Heq|]).
    by apply elem_of_nil in Hin.
  - by cbv.
  - by rewrite Hrules.
Defined.

(** * Further properties of the collection *)
Section Search_facts.
Context {T : Type}.
Implicit Types (this : ts.ThreadSafeList T) (l : list T) (p : T -> bool).

Lemma std_find_if_first p l1 x l2 :
  (forall y, y ∈ l1 -> p y = false) -> p x = true ->
  ts.std_find_if p (l1 ++ x :: l2) = Some (length l1).
Proof.
  intros Hpre Hx. induction l1 as [|y l1 IH]; cbn.
  - by rewrite Hx.
  - rewrite (Hpre y) by apply list_elem_of_here.
    rewrite IH; [done|]. intros z Hz. apply Hpre. by apply list_elem_of_further.
Qed.

Lemma std_find_if_none p l :
  (forall y, y ∈ l -> p y = false) -> ts.std_find_if p l = None.
Proof.
  induction l as [|x l IH]; intros Hno; cbn; [done|].
  rewrite (Hno x) by apply list_elem_of_here.
  rewrite IH; [done|]. intros y Hy. apply Hno. by apply list_elem_of_further.
Qed.

(** X1.  [find_if] answers a copy of the first element, front to back,
    that satisfies the predicate, and absence exactly when no element
    does. *)
Theorem find_if_first p this :
  (forall x,
      ts.find_if p this = Some x
      <-> exists l1 l2,
            ts.data_ this = l1 ++ x :: l2
            /\ (forall y, y ∈ l1 -> p y = false) /\ p x = true)
  /\ (ts.find_if p this = None <-> forall y, y ∈ ts.data_ this -> p y = false).
Proof.
  destruct this as [l]. unfold ts.find_if; cbn [ts.data_].
  pose proof (std_find_if_spec p l) as Hspec.
  destruct (ts.std_find_if p l) as [it|] eqn:Hfind.
  - destruct Hspec as (l1 & x & l2 & -> & <- & Hx & Hpre).
    rewrite list_lookup_middle by done. split.
    + intros x'. split.
      * intros [= <-]. by exists l1, l2.
      * intros (l1' & l2' & Hsplit & Hpre' & Hx').
        rewrite Hsplit, (std_find_if_first p l1' x' l2' Hpre' Hx') in Hfind.
        injection Hfind as Hlen.
        assert (Hat : (l1' ++ x' :: l2') !! length l1' = Some x')
          by by apply list_lookup_middle.
        rewrite <- Hsplit, Hlen, list_lookup_middle in Hat by done. done.
    + split; [done|]. intros Hno.
      rewrite (Hno x) in Hx; [done|].
      apply elem_of_app. right. apply list_elem_of_here.
  - split.
    + intros x. split; [done|].
      intros (l1 & l2 & -> & Hpre & Hx).
      by rewrite (std_find_if_first p l1 x l2 Hpre Hx) in Hfind.
    + done.
Qed.

Lemma std_remove_if_elem p l y :
  y ∈ ts.std_remove_if p l <-> y ∈ l /\ p y = false.
Proof.
  induction l as [|x l IH]; cbn.
  - split; [intros H; by apply elem_of_nil in H|intros [H _]; by apply elem_of_nil in H].
  - destruct (p x) eqn:Hx.
    + rewrite IH, elem_of_cons. split; [intros [? ?]; auto|].
      intros [[->|?] Hy]; [congruence|done].
    + rewrite !elem_of_cons, IH. split.
      * intros [->|[? ?]]; auto.
      * intros [[->|?] Hy]; auto.
Qed.

Lemma std_remove_if_sublist p l : sublist (ts.std_remove_if p l) l.
Proof.
  induction l as [|x l IH]; cbn; [constructor|]. destruct (p x); by constructor.
Qed.

Lemma std_remove_if_length p l :
  length (ts.std_remove_if p l) + length (List.filter p l) = length l.
Proof.
  induction l as [|x l IH]; cbn; [done|]. destruct (p x); cbn; lia.
Qed.

Lemma std_remove_if_idem p l :
  ts.std_remove_if p (ts.std_remove_if p l) = ts.std_remove_if p l.
Proof.
  induction l as [|x l IH]; cbn; [done|].
  destruct (p x) eqn:Hx; cbn; [done|]. by rewrite Hx, IH.
Qed.

Lemma erase_if_loop_remove_if p l : ts.erase_if_loop p l = ts.std_remove_if p l.
Proof. induction l as [|x l IH]; cbn; [done|]. by rewrite IH. Qed.

(** X2.  [remove_if] and [erase_if] do the same: they keep exactly the
    elements that fail the predicate, in their order; the size goes down
    by the number of elements that satisfy it; afterwards [find_if] with
    the same predicate finds nothing and a second removal changes
    nothing. *)
Theorem remove_if_keeps_the_rest p this :
  ts.erase_if p this = ts.remove_if p this
  /\ (forall y, y ∈ ts.data_ (ts.remove_if p this)
               <-> y ∈ ts.data_ this /\ p y = false)
  /\ sublist (ts.data_ (ts.remove_if p this)) (ts.data_ this)
  /\ ts.size (ts.remove_if p this) + length (List.filter p (ts.data_ this))
     = ts.size this
  /\ ts.find_if p (ts.remove_if p this) = None
  /\ ts.remove_if p (ts.remove_if p this) = ts.remove_if p this.
Proof.
  destruct this as [l].
  unfold ts.erase_if, ts.remove_if, ts.size, ts.find_if; cbn [ts.data_].
  split; [by rewrite erase_if_loop_remove_if|].
  split; [intros y; apply std_remove_if_elem|].
  split; [apply std_remove_if_sublist|].
  split; [apply std_remove_if_length|].
  assert (Hgone : forall y, y ∈ ts.std_remove_if p l -> p y = false).
  { intros y Hy. by apply std_remove_if_elem in Hy as [_ ?]. }
  split; [by rewrite (std_find_if_none _ _ Hgone)|].
  f_equal. apply std_remove_if_idem.
Qed.
End Search_facts.

Lemma find_if_first_witness :
  let this := ts.mk [1; 4; 6; 7] in
  ts.find_if Nat.even this = Some 4
  /\ ts.find_if (fun x => Nat.ltb 10 x) this = None.
Proof.
  intros this. split.
  - apply (proj1 (find_if_first Nat.even this) 4).
    exists [1], [6; 7]. split; [reflexivity|]. split; [|reflexivity].
    intros y Hy. each_member Hy.
  - apply (proj2 (find_if_first (fun x => Nat.ltb 10 x) this)).
    intros y Hy. cbn in Hy. each_member Hy.
Defined.

Lemma remove_if_keeps_the_rest_witness :
  let this := ts.mk [1; 4; 6; 7] in
  ts.data_ (ts.remove_if Nat.even this) = [1; 7]
  /\ (7 ∈ ts.data_ this /\ Nat.even 7 = false)
  /\ 7 ∈ ts.data_ (ts.remove_if Nat.even this).
Proof.
  intros this.
  assert (Hin : 7 ∈ ts.data_ this /\ Nat.even 7 = false).
  { split; [|reflexivity]. cbn. do 3 apply list_elem_of_further. apply list_elem_of_here. }
  split; [reflexivity|]. split; [exact Hin|].
  exact (proj2 (proj1 (proj2 (remove_if_keeps_the_rest Nat.even this)) 7) Hin).
Defined.

Section Run_facts.
Context {T : Type}.
Implicit Types (this : ts.ThreadSafeList T) (l xs : list T) (ops : list (ts.Op T)).

Lemma run_app ops1 ops2 this :
  ts.run (ops1 ++ ops2) this
  = ((ts.run ops1 this).1 ++ (ts.run ops2 (ts.run ops1 this).2).1,
     (ts.run ops2 (ts.run ops1 this).2).2).
Proof.
  revert this.
  induction ops1 as [|[v|v| |] ops1 IH]; intros this; cbn [app ts.run fst snd].
  - by destruct (ts.run ops2 this).
  - apply IH.
  - apply IH.
  - destruct (ts.pop_front this) as [r this']. rewrite IH.
    by destruct (ts.run ops1 this').
  - destruct (ts.pop_back this) as [r this']. rewrite IH.
    by destruct (ts.run ops1 this').
Qed.

Lemma pop_size this :
  ts.size (ts.pop_front this).2 + returned [(ts.pop_front this).1] = ts.size this
  /\ ts.size (ts.pop_back this).2 + returned [(ts.pop_back this).1] = ts.size this.
Proof.
  destruct this as [l]. unfold ts.size.
  split.
  - destruct l; cbn; lia.
  - induction l as [|x l _] using rev_ind; [done|].
    rewrite pop_back_snoc. cbn. rewrite length_app. cbn. lia.
Qed.

(** X3.  Over any sequence of pushes and pops, elements are neither lost
    nor made up: the size left plus the number of pops that returned a
    value equals the size at the start plus the number of pushes; and every
    pop, empty or not, returns exactly one result. *)
Theorem size_conservation ops this :
  ts.size (ts.run ops this).2 + returned (ts.run ops this).1
  = ts.size this + pushes ops
  /\ length (ts.run ops this).1 = pops ops.
Proof.
  revert this. induction ops as [|[v|v| |] ops IH]; intros this; cbn [ts.run].
  - unfold returned, pushes; cbn. lia.
  - destruct (IH (ts.push_front v this)) as [-> ->].
    unfold pushes, pops, ts.size; cbn. lia.
  - destruct (IH (ts.push_back v this)) as [-> ->].
    unfold pushes, pops, ts.size; cbn. rewrite length_app. cbn. lia.
  - destruct (pop_size this) as [Hsz _].
    destruct (ts.pop_front this) as [r this']. specialize (IH this').
    destruct (ts.run ops this') as [rs final]. cbn in *.
    destruct IH as [IH1 IH2]. unfold returned, pushes, pops in *; cbn in *.
    destruct r; cbn in *; lia.
  - destruct (pop_size this) as [_ Hsz].
    destruct (ts.pop_back this) as [r this']. specialize (IH this').
    destruct (ts.run ops this') as [rs final]. cbn in *.
    destruct IH as [IH1 IH2]. unfold returned, pushes, pops in *; cbn in *.
    destruct r; cbn in *; lia.
Qed.

Lemma run_push_back xs l :
  ts.run (map ts.PushBack xs) (ts.mk l) = ([], ts.mk (l ++ xs)).
Proof.
  revert l. induction xs as [|x xs IH]; intros l; cbn.
  - by rewrite app_nil_r.
  - unfold ts.push_back; cbn. by rewrite IH, <- app_assoc.
Qed.

Lemma run_push_front xs l :
  ts.run (map ts.PushFront xs) (ts.mk l) = ([], ts.mk (rev xs ++ l)).
Proof.
  revert l. induction xs as [|x xs IH]; intros l; cbn; [done|].
  unfold ts.push_front; cbn. by rewrite IH, <- app_assoc.
Qed.

Lemma run_pop_front n l :
  ts.run (replicate n ts.PopFront) (ts.mk l) = (drained n l, ts.mk (drop n l)).
Proof.
  revert l. induction n as [|n IH]; intros l; cbn [replicate ts.run].
  - unfold drained. by rewrite take_0, drop_0.
  - destruct l as [|x l]; cbn.
    + rewrite IH. unfold drained. cbn [length].
      by rewrite !take_nil, !drop_nil, Nat.sub_0_r.
    + rewrite IH. done.
Qed.

Lemma run_pop_back n l :
  ts.run (replicate n ts.PopBack) (ts.mk l)
  = (drained n (rev l), ts.mk (take (length l - n) l)).
Proof.
  revert l. induction n as [|n IH]; intros l; cbn [replicate ts.run].
  - unfold drained. rewrite take_0, Nat.sub_0_r, firstn_all. done.
  - induction l as [|x l _] using rev_ind.
    + cbn. rewrite IH. unfold drained. cbn [length rev].
      by rewrite !take_nil, Nat.sub_0_r.
    + rewrite pop_back_snoc, IH, rev_unit, length_app. cbn.
      replace (length l + 1 - S n) with (length l - n) by lia.
      rewrite take_app_le by lia. done.
Qed.

(** X4.  The collection is a queue and a stack at once.  A batch pushed at
    the back and popped at the front comes out in the order pushed, after
    what was there; a batch pushed at the front and popped at the front
    comes out in reverse, before what was there; the same holds with the
    two ends exchanged.  Pops beyond the last element return absence. *)
Theorem fifo_and_lifo l xs n :
  ts.run (map ts.PushBack xs ++ replicate n ts.PopFront) (ts.mk l)
  = (drained n (l ++ xs), ts.mk (drop n (l ++ xs)))
  /\ ts.run (map ts.PushFront xs ++ replicate n ts.PopFront) (ts.mk l)
     = (drained n (rev xs ++ l), ts.mk (drop n (rev xs ++ l)))
  /\ ts.run (map ts.PushFront xs ++ replicate n ts.PopBack) (ts.mk l)
     = (drained n (rev l ++ xs),
        ts.mk (take (length xs + length l - n) (rev xs ++ l)))
  /\ ts.run (map ts.PushBack xs ++ replicate n ts.PopBack) (ts.mk l)
     = (drained n (rev xs ++ rev l),
        ts.mk (take (length l + length xs - n) (l ++ xs)))
  /\ ts.run (map ts.PushBack xs ++ replicate (length xs) ts.PopFront) (ts.mk [])
     = (map Some xs, ts.mk [])
  /\ ts.run (map ts.PushFront xs ++ replicate (length xs) ts.PopFront) (ts.mk l)
     = (map Some (rev xs), ts.mk l).
Proof.
  repeat split.
  - by rewrite run_app, run_push_back; cbn; rewrite run_pop_front.
  - by rewrite run_app, run_push_front; cbn; rewrite run_pop_front.
  - rewrite run_app, run_push_front; cbn. rewrite run_pop_back; cbn.
    by rewrite rev_app_distr, rev_involutive, length_app, length_rev.
  - rewrite run_app, run_push_back; cbn. rewrite run_pop_back; cbn.
    by rewrite rev_app_distr, length_app.
  - rewrite run_app, run_push_back; cbn. rewrite run_pop_front; cbn.
    unfold drained. rewrite firstn_all, drop_all, Nat.sub_diag. cbn.
    by rewrite app_nil_r.
  - rewrite run_app, run_push_front; cbn. rewrite run_pop_front; cbn.
    unfold drained. rewrite <- (length_rev xs).
    rewrite take_app_length, drop_app_length, length_app.
    replace (length (rev xs) - (length (rev xs) + length l)) with 0 by lia.
    cbn. by rewrite app_nil_r.
Qed.

(** X7.  The observers agree with one another: [empty] holds exactly when
    [size] is 0, and exactly when [front], [back], [pop_front] and
    [pop_back] answer absence; [front] and [back] answer what [pop_front]
    and [pop_back] would remove; a pop on a collection that is not empty
    takes exactly one element; [clear] leaves the collection empty. *)
Theorem observers_agree this :
  (ts.empty this = true <-> ts.size this = 0)
  /\ (ts.front this = None <-> ts.empty this = true)
  /\ (ts.back this = None <-> ts.empty this = true)
  /\ ts.front this = (ts.pop_front this).1
  /\ ts.back this = (ts.pop_back this).1
  /\ (ts.empty this = false ->
      ts.size (ts.pop_front this).2 + 1 = ts.size this
      /\ ts.size (ts.pop_back this).2 + 1 = ts.size this)
  /\ ts.empty (ts.clear this) = true
  /\ ts.size (ts.clear this) = 0.
Proof.
  destruct (pop_size this) as [Hf Hb].
  destruct this as [l].
  unfold ts.empty, ts.size, ts.front, ts.back, ts.pop_front, ts.pop_back in *;
    cbn [ts.data_] in *.
  destruct l as [|x l]; cbn in *.
  - repeat split; done.
  - repeat split; try done; unfold returned in *; cbn in *; lia.
Qed.
End Run_facts.

Lemma observers_agree_witness :
  let this := ts.mk [4; 5; 6] in
  ts.empty this = false
  /\ ts.front this = Some 4
  /\ ts.back this = Some 6
  /\ ts.size (ts.pop_front this).2 + 1 = 3
  /\ ts.size (ts.pop_back this).2 + 1 = 3.
Proof.
  intros this.
  assert (Hne : ts.empty this = false) by reflexivity.
  split; [exact Hne|]. split; [reflexivity|]. split; [reflexivity|].
  exact (proj1 (proj2 (proj2 (proj2 (proj2 (proj2 (observers_agree this)))))) Hne).
Defined.

Section Erase_more.
Context {T : Type} (T_eq : T -> T -> bool).
Implicit Types (this : ts.ThreadSafeList T) (l : list T) (value : T).

Lemma equal_count_zero value l :
  ts.equal_count T_eq value l = 0 -> forall y, y ∈ l -> T_eq y value = false.
Proof.
  unfold ts.equal_count. induction l as [|x l IH]; cbn.
  - intros _ y Hy. by apply elem_of_nil in Hy.
  - destruct (T_eq x value) eqn:Hx; cbn; [done|].
    intros Hz y [->|Hy]%elem_of_cons; auto.
Qed.

Lemma std_remove_if_none p l :
  (forall y, y ∈ l -> p y = false) -> ts.std_remove_if p l = l.
Proof.
  induction l as [|x l IH]; intros Hno; cbn; [done|].
  rewrite (Hno x) by apply list_elem_of_here.
  rewrite IH; [done|]. intros y Hy. apply Hno. by apply list_elem_of_further.
Qed.

(** X5.  Erasing a value changes the collection exactly when an element
    equal to it is there: with no equal element [erase_first] and [erase]
    both leave the collection as it was, and with one they do not. *)
Theorem erase_changes_iff_present value this :
  (ts.erase_first T_eq value this = this
   <-> forall y, y ∈ ts.data_ this -> T_eq y value = false)
  /\ (ts.erase T_eq value this = this
      <-> forall y, y ∈ ts.data_ this -> T_eq y value = false).
Proof.
  destruct this as [l]. split.
  - unfold ts.erase_first, ts.std_find; cbn [ts.data_].
    pose proof (std_find_if_spec (fun x => T_eq x value) l) as Hspec.
    destruct (ts.std_find_if _ l) as [it|].
    + destruct Hspec as (l1 & x & l2 & -> & <- & Hx & Hpre).
      rewrite delete_middle. split.
      * intros [= Heq]. apply (f_equal length) in Heq.
        rewrite !length_app in Heq. cbn in Heq. lia.
      * intros Hno. rewrite (Hno x) in Hx; [done|].
        apply elem_of_app. right. apply list_elem_of_here.
    + done.
  - unfold ts.erase; cbn [ts.data_]. split.
    + intros [= Heq]. apply (equal_count_zero value).
      pose proof (count_split T_eq value l) as Hcount. unfold ts.unequal in Hcount.
      rewrite <- (std_remove_if_filter (fun x => T_eq x value)) in Hcount.
      rewrite Heq in Hcount. lia.
    + intros Hno. by rewrite std_remove_if_none.
Qed.

Lemma erase_first_cons value x l :
  ts.erase_first T_eq value (ts.mk (x :: l))
  = if T_eq x value then ts.mk l
    else ts.mk (x :: ts.data_ (ts.erase_first T_eq value (ts.mk l))).
Proof.
  unfold ts.erase_first, ts.std_find; cbn.
  destruct (T_eq x value); [done|].
  by destruct (ts.std_find_if _ l).
Qed.

Lemma iter_erase_first_skip value x l n :
  T_eq x value = false ->
  Nat.iter n (ts.erase_first T_eq value) (ts.mk (x :: l))
  = ts.mk (x :: ts.data_ (Nat.iter n (ts.erase_first T_eq value) (ts.mk l))).
Proof.
  intros Hx. induction n as [|n IH]; [done|].
  rewrite !Nat.iter_succ, IH, erase_first_cons, Hx.
  by destruct (Nat.iter n (ts.erase_first T_eq value) (ts.mk l)).
Qed.

(** X6.  [erase] is [erase_first] repeated: calling [erase_first] once for
    every element equal to the value leaves what one call of [erase]
    leaves, and after that further calls of either change nothing. *)
Theorem erase_is_repeated_erase_first value this :
  Nat.iter (ts.equal_count T_eq value (ts.data_ this))
    (ts.erase_first T_eq value) this
  = ts.erase T_eq value this
  /\ ts.erase_first T_eq value (ts.erase T_eq value this) = ts.erase T_eq value this
  /\ ts.erase T_eq value (ts.erase T_eq value this) = ts.erase T_eq value this.
Proof.
  destruct this as [l]. cbn [ts.data_].
  assert (Hgone : forall l' y, y ∈ ts.data_ (ts.erase T_eq value (ts.mk l')) ->
                    T_eq y value = false).
  { intros l' y Hy. by apply std_remove_if_elem in Hy as [_ ?]. }
  split; [|split].
  - induction l as [|x l IH]; [done|].
    unfold ts.equal_count in *. cbn [List.filter].
    destruct (T_eq x value) eqn:Hx.
    + cbn [length]. rewrite Nat.iter_succ_r, erase_first_cons, Hx, IH.
      unfold ts.erase. cbn. by rewrite Hx.
    + rewrite (iter_erase_first_skip _ _ _ _ Hx), IH.
      unfold ts.erase. cbn. by rewrite Hx.
  - unfold ts.erase_first, ts.std_find.
    by rewrite (std_find_if_none _ _ (Hgone l)).
  - unfold ts.erase at 1. rewrite (std_remove_if_none _ _ (Hgone l)).
    by destruct (ts.erase T_eq value (ts.mk l)).
Qed.
End Erase_more.

Lemma erase_changes_iff_present_witness :
  let this := ts.mk [2; 3; 5] in
  (forall y, y ∈ ts.data_ this -> Nat.eqb y 7 = false)
  /\ ts.erase_first Nat.eqb 7 this = this
  /\ ts.erase Nat.eqb 7 this = this.
Proof.
  intros this.
  assert (Hno : forall y, y ∈ ts.data_ this -> Nat.eqb y 7 = false).
  { intros y Hy. cbn in Hy. each_member Hy. }
  split; [exact Hno|]. split.
  - exact (proj2 (proj1 (erase_changes_iff_present Nat.eqb 7 this)) Hno).
  - exact (proj2 (proj2 (erase_changes_iff_present Nat.eqb 7 this)) Hno).
Defined.

Section ForEach_facts.
Context {T St : Type}.
Implicit Types (this : ts.ThreadSafeList T) (l : list T) (s : St).

Lemma for_each_loop_app (fn : T -> State St unit) l1 l2 s :
  for_each_loop fn (l1 ++ l2) s
  = for_each_loop fn l2 (exec (for_each_loop fn l1) s).
Proof.
  revert s. induction l1 as [|x l1 IH]; intros s; cbn; [done|].
  unfold bind, exec. destruct (fn x s) as [[] s1]. cbn. rewrite IH. done.
Qed.

Lemma for_each_loop_record (l log : list T) :
  exec (for_each_loop (fun x => modify (fun seen => seen ++ [x])) l) log = log ++ l.
Proof.
  revert log. induction l as [|x l IH]; intros log.
  - cbn. by rewrite app_nil_r.
  - unfold exec in *. cbn. unfold bind, modify. rewrite IH. by rewrite <- app_assoc.
Qed.

(** X8.  [for_each] calls the visitor on every element once, front to
    back: a visitor that records what it sees records the elements in
    their order; what [for_each] does on two collections laid end to end
    is what it does on the first and then on the second, so a push at the
    back adds one call at the end and a push at the front one call at the
    start; on an empty collection the visitor is not called. *)
Theorem for_each_in_order (fn : T -> State St unit) this (v : T) l1 l2 s
    (log : list T) :
  exec (for_each (fun x => modify (fun seen => seen ++ [x])) this) log
  = log ++ ts.data_ this
  /\ for_each fn (ts.mk (l1 ++ l2)) s
     = for_each fn (ts.mk l2) (exec (for_each fn (ts.mk l1)) s)
  /\ for_each fn (ts.push_back v this) s = fn v (exec (for_each fn this) s)
  /\ for_each fn (ts.push_front v this) s
     = for_each fn this (exec (fn v) s)
  /\ for_each fn (ts.mk []) s = (tt, s).
Proof.
  unfold for_each, ts.push_back, ts.push_front; cbn [ts.data_].
  split; [apply for_each_loop_record|].
  split; [apply for_each_loop_app|]. split; [|split; [|done]].
  - rewrite for_each_loop_app. cbn. unfold bind, ret.
    destruct (fn v _) as [[] s1]. done.
  - cbn. unfold bind, exec. by destruct (fn v s) as [[] s1].
Qed.

Lemma for_each_mutable_loop_length (fn : T -> State St T) l s :
  length (eval (for_each_mutable_loop fn l) s) = length l.
Proof.
  revert s. induction l as [|x l IH]; intros s; [done|].
  unfold eval in *. cbn. unfold bind, ret. destruct (fn x s) as [x' s1].
  specialize (IH s1). destruct (for_each_mutable_loop fn l s1). cbn in *. by rewrite IH.
Qed.

Lemma for_each_mutable_loop_effects (fn : T -> State St T) l s :
  exec (for_each_mutable_loop fn l) s
  = exec (for_each_loop (fun x => fn x ;; ret tt) l) s.
Proof.
  revert s. induction l as [|x l IH]; intros s; [done|].
  unfold exec in *. cbn. unfold bind, ret. destruct (fn x s) as [x' s1].
  specialize (IH s1). destruct (for_each_mutable_loop fn l s1). cbn in *.
  rewrite IH. done.
Qed.

Lemma for_each_mutable_loop_pure (f : T -> T) l s :
  for_each_mutable_loop (fun x => ret (f x)) l s = (map f l, s).
Proof.
  induction l as [|x l IH]; [done|]. cbn. unfold bind, ret in *. by rewrite IH.
Qed.

(** X9.  [for_each_mutable] updates the elements in place and never
    changes their number: whatever the visitor does, the size is the same
    afterwards; its effects on what it captured happen in the order of
    [for_each]; and a visitor that only rewrites its element by [f] leaves
    [map f] of the elements. *)
Theorem for_each_mutable_keeps_size (fn : T -> State St T) (f : T -> T) this s :
  ts.size (eval (for_each_mutable fn this) s) = ts.size this
  /\ exec (for_each_mutable fn this) s
     = exec (for_each (fun x => fn x ;; ret tt) this) s
  /\ for_each_mutable (fun x => ret (f x)) this s
     = (ts.mk (map f (ts.data_ this)), s).
Proof.
  split; [|split].
  - pose proof (for_each_mutable_loop_length fn (ts.data_ this) s) as Hlen.
    unfold for_each_mutable, eval, bind, ret, ts.size in *.
    destruct (for_each_mutable_loop fn (ts.data_ this) s). done.
  - pose proof (for_each_mutable_loop_effects fn (ts.data_ this) s) as Heff.
    unfold for_each_mutable, for_each, exec, bind, ret in *.
    destruct (for_each_mutable_loop fn (ts.data_ this) s). done.
  - unfold for_each_mutable, bind. by rewrite for_each_mutable_loop_pure.
Qed.
End ForEach_facts.

(** * Further properties of the registries and of dispatch *)
Section Selection_facts.
Import WebServer.
Context {RF UF BF : Type}.
Implicit Types (s this : AsyncWebServer RF UF BF) (w : World RF UF BF)
  (q : AsyncWebServerRequest) (r : AsyncWebRewrite) (h x : AsyncWebHandler)
  (p : addr).

Lemma find_first {A} (f : A -> bool) (pre : list A) (a : A) (post : list A) :
  (forall y, y ∈ pre -> f y = false) -> f a = true ->
  List.find f (pre ++ a :: post) = Some a.
Proof.
  intros Hpre Ha. induction pre as [|y pre IH]; cbn.
  - by rewrite Ha.
  - rewrite (Hpre y) by apply list_elem_of_here.
    apply IH. intros z Hz. apply Hpre. by apply list_elem_of_further.
Qed.

Lemma find_nothing {A} (f : A -> bool) (l : list A) :
  (forall y, y ∈ l -> f y = false) -> List.find f l = None.
Proof.
  induction l as [|y l IH]; intros Hno; cbn; [done|].
  rewrite (Hno y) by apply list_elem_of_here.
  apply IH. intros z Hz. apply Hno. by apply list_elem_of_further.
Qed.

Lemma find_skip {A} (f : A -> bool) (pre : list A) (a : A) (post : list A) :
  f a = false -> List.find f (pre ++ a :: post) = List.find f (pre ++ post).
Proof.
  intros Ha. induction pre as [|y pre IH]; cbn.
  - by rewrite Ha.
  - by rewrite IH.
Qed.

Lemma find_app_l {A} (f : A -> bool) (l1 l2 : list A) :
  List.find f (l1 ++ l2)
  = match List.find f l1 with Some a => Some a | None => List.find f l2 end.
Proof. induction l1 as [|y l1 IH]; cbn; [done|]. by destruct (f y). Qed.

Lemma attachHandler_selected w :
  _attachHandler w = (tt, exec (setHandler (selected (server w) (request w))) w).
Proof.
  unfold selected.
  destruct (first_hit_split (accepts (request w)) (_handlers (server w)))
    as [Hall|(pre & h & post & Hsplit & Hpre & Hh)].
  - by rewrite (find_nothing _ _ Hall), attachHandler_miss.
  - rewrite Hsplit, (find_first _ _ _ _ Hpre Hh).
    by apply (attachHandler_hit w pre h post).
Qed.

Lemma attach_selected s q :
  attach s q = mkRequest (_url q) (_params q) (Some (selected s q)).
Proof. unfold attach, exec. by rewrite attachHandler_selected. Qed.

Lemma resolve_resolved s q : resolve s q = resolved (_rewrites s) q.
Proof. unfold resolve, exec. by rewrite rewriteRequest_run. Qed.

Lemma applied_app (rs1 rs2 : list AsyncWebRewrite) q :
  applied (rs1 ++ rs2) q = applied rs1 q ++ applied rs2 (resolved rs1 q).
Proof.
  revert q. induction rs1 as [|r rs1 IH]; intros q; cbn; [done|].
  unfold resolved. cbn [applied].
  destruct (match_ r q); rewrite IH; done.
Qed.

Lemma resolved_app (rs1 rs2 : list AsyncWebRewrite) q :
  resolved (rs1 ++ rs2) q = resolved rs2 (resolved rs1 q).
Proof.
  unfold resolved at 1. rewrite applied_app. unfold apply_all.
  by rewrite foldl_app.
Qed.

(** X10.  Handlers keep their priority: [addHandler] puts the new handler
    behind those registered before, so it never takes a request that one
    of them accepts; it is bound exactly for the requests that it accepts
    and none of them does, and the catch-all keeps the rest. *)
Theorem later_handler_never_shadows h s q :
  let s' := exec (addHandler h) s in
  _handlers s' = _handlers s ++ [h]
  /\ ((exists x, x ∈ _handlers s /\ accepts q x = true) -> attach s' q = attach s q)
  /\ ((forall x, x ∈ _handlers s -> accepts q x = false) ->
      accepts q h = true -> _handler (attach s' q) = Some (self h))
  /\ ((forall x, x ∈ _handlers s -> accepts q x = false) ->
      accepts q h = false ->
      _handler (attach s' q) = Some (self (catchAllHandler s))).
Proof.
  intros s'. split; [done|].
  rewrite !attach_selected. unfold selected. subst s'. cbn [exec addHandler].
  cbn. rewrite find_app_l. cbn.
  split; [|split].
  - intros (x & Hx & Hacc).
    destruct (List.find (accepts q) (_handlers s)) eqn:Hfind; [done|].
    apply list_elem_of_In in Hx.
    by rewrite (List.find_none _ _ Hfind x Hx) in Hacc.
  - intros Hno Hh. by rewrite (find_nothing _ _ Hno), Hh.
  - intros Hno Hh. by rewrite (find_nothing _ _ Hno), Hh.
Qed.

(** X11.  Rules layer: [addRewrite] puts the new rule behind those
    registered before, so resolution with it is resolution without it
    followed by the new rule, tested on the request as the earlier rules
    left it; when it matches, its URL is the one that persists.  More
    generally resolution over a registry cut in two is resolution over the
    first part, then over the second. *)
Theorem later_rule_applies_last r s q (rs1 rs2 : list AsyncWebRewrite) :
  let s' := exec (addRewrite r) s in
  _rewrites s' = _rewrites s ++ [r]
  /\ resolve s' q
     = (if match_ r (resolve s q) then apply_rule r (resolve s q) else resolve s q)
  /\ (match_ r (resolve s q) = true -> _url (resolve s' q) = toUrl r)
  /\ resolve (set_rewrites (rs1 ++ rs2) s) q
     = resolve (set_rewrites rs2 s) (resolve (set_rewrites rs1 s) q).
Proof.
  intros s'. split; [done|].
  assert (Hlast : resolve s' q
                  = if match_ r (resolve s q) then apply_rule r (resolve s q)
                    else resolve s q).
  { rewrite !resolve_resolved.
    change (_rewrites s') with (_rewrites s ++ [r]). rewrite resolved_app.
    unfold resolved at 1. cbn. by destruct (match_ r _). }
  split; [done|]. split.
  - intros Hm. by rewrite Hlast, Hm.
  - rewrite !resolve_resolved. cbn [_rewrites set_rewrites]. apply resolved_app.
Qed.

(** X12.  A dispatch selects on the rewritten request: what it leaves is
    what selection leaves of what resolution leaves.  Selection changes
    nothing of the request but its handler field, and resolution does not
    touch the handler field. *)
Theorem dispatch_selects_on_rewritten s q :
  route s q = attach s (resolve s q)
  /\ _url (route s q) = _url (resolve s q)
  /\ _params (route s q) = _params (resolve s q)
  /\ _url (attach s q) = _url q
  /\ _params (attach s q) = _params q
  /\ _handler (resolve s q) = _handler q.
Proof.
  assert (Hroute : route s q = attach s (resolve s q)).
  { unfold route, attach, resolve, exec, dispatch, bind.
    rewrite rewriteRequest_run. cbn [server request assigned fst snd].
    by rewrite !attachHandler_selected. }
  rewrite Hroute, !attach_selected, resolve_resolved. cbn.
  repeat split. apply apply_all_handler.
Qed.
End Selection_facts.

Lemma later_handler_never_shadows_witness :
  let late := WebServer.mkHandler 14 (fun _ => true) (fun _ => true) in
  let only := WebServer.mkServer [] [demo.H1] demo.fresh in
  let q := WebServer.mkRequest "/B" [] None in
  attach (exec (WebServer.addHandler late) demo.srv) q = attach demo.srv q
  /\ WebServer._handler (attach demo.srv q) = Some 12
  /\ WebServer._handler (attach (exec (WebServer.addHandler late) only) q) = Some 14
  /\ WebServer._handler (attach (exec (WebServer.addHandler demo.H1) only) q) = Some 1.
Proof.
  intros late only q.
  split; [|split; [reflexivity|split]].
  - apply (proj1 (proj2 (later_handler_never_shadows late demo.srv q))).
    exists demo.H2. split; [|reflexivity].
    cbn. apply list_elem_of_further, list_elem_of_here.
  - apply (proj1 (proj2 (proj2 (later_handler_never_shadows late only q))));
      [|reflexivity].
    intros x Hx. cbn in Hx. each_member Hx.
  - apply (proj2 (proj2 (proj2 (later_handler_never_shadows demo.H1 only q))));
      [|reflexivity].
    intros x Hx. cbn in Hx. each_member Hx.
Defined.

Lemma later_rule_applies_last_witness :
  let s := WebServer.mkServer [demo.R1] [] demo.fresh in
  WebServer.match_ demo.R2 (resolve s demo.req) = true
  /\ WebServer._url (resolve s demo.req) = "/A"%string
  /\ WebServer._url (resolve (exec (WebServer.addRewrite demo.R2) s) demo.req)
     = "/B"%string.
Proof.
  intros s. split; [reflexivity|]. split; [reflexivity|].
  exact (proj1 (proj2 (proj2 (later_rule_applies_last demo.R2 s demo.req [] [])))
           eq_refl).
Defined.

Lemma dispatch_selects_on_rewritten_witness :
  WebServer._handler (route demo.srv demo.req) = Some 12
  /\ WebServer._handler (attach demo.srv demo.req) = Some 13
  /\ route demo.srv demo.req = attach demo.srv (resolve demo.srv demo.req).
Proof.
  split; [reflexivity|]. split; [reflexivity|].
  exact (proj1 (dispatch_selects_on_rewritten demo.srv demo.req)).
Defined.

Section Registration_facts.
Import WebServer.
Context {RF UF BF : Type}.
Implicit Types (s this : AsyncWebServer RF UF BF) (q : AsyncWebServerRequest)
  (r : AsyncWebRewrite) (h : AsyncWebHandler) (p : addr).

Lemma server_eta s : mkServer (_rewrites s) (_handlers s) (_catchAllHandler s) = s.
Proof. by destruct s. Qed.

Lemma removeRewrite_cases (from_ to : string) s :
  removeRewrite from_ to s = (false, s)
  \/ exists pre x post,
       _rewrites s = pre ++ x :: post
       /\ (forall y, y ∈ pre -> ~ same_rule from_ to y)
       /\ same_rule from_ to x
       /\ removeRewrite from_ to s = (true, set_rewrites (pre ++ post) s).
Proof.
  destruct (first_hit_split
              (fun r => String.eqb (from r) from_ && String.eqb (toUrl r) to)
              (_rewrites s)) as [Hall|(pre & x & post & Hsplit & Hpre & Hx)].
  - left. apply removeRewrite_miss. intros r Hr. apply same_rule_false. by apply Hall.
  - right. exists pre, x, post.
    assert (Hpre' : forall y, y ∈ pre -> ~ same_rule from_ to y).
    { intros y Hy. apply same_rule_false. by apply Hpre. }
    apply same_rule_true in Hx.
    split; [done|]. split; [done|]. split; [done|].
    by apply (removeRewrite_hit _ _ _ pre x post).
Qed.

(** X13.  Registration and removal undo one another.  A rule added and
    then removed by its own strings is always found: the call returns
    [true] and the registry has its former length.  When no registered
    rule had those strings, the server is exactly as before; when one had,
    the earlier rule is the one removed and the new rule stays, last.  The
    same holds of a handler and its address. *)
Theorem add_then_remove r h s :
  eval (removeRewrite (from r) (toUrl r)) (exec (addRewrite r) s) = true
  /\ length (_rewrites (exec (removeRewrite (from r) (toUrl r)) (exec (addRewrite r) s)))
     = length (_rewrites s)
  /\ ((forall x, x ∈ _rewrites s -> ~ same_rule (from r) (toUrl r) x) ->
      removeRewrite (from r) (toUrl r) (exec (addRewrite r) s) = (true, s))
  /\ (forall pre x post,
        _rewrites s = pre ++ x :: post ->
        (forall y, y ∈ pre -> ~ same_rule (from r) (toUrl r) y) ->
        same_rule (from r) (toUrl r) x ->
        removeRewrite (from r) (toUrl r) (exec (addRewrite r) s)
        = (true, set_rewrites (pre ++ post ++ [r]) s))
  /\ eval (removeHandler (self h)) (exec (addHandler h) s) = true
  /\ length (_handlers (exec (removeHandler (self h)) (exec (addHandler h) s)))
     = length (_handlers s)
  /\ ((forall x, x ∈ _handlers s -> self x <> self h) ->
      removeHandler (self h) (exec (addHandler h) s) = (true, s))
  /\ (forall pre x post,
        _handlers s = pre ++ x :: post ->
        (forall y, y ∈ pre -> self y <> self h) ->
        self x = self h ->
        removeHandler (self h) (exec (addHandler h) s)
        = (true, set_handlers (pre ++ post ++ [h]) s)).
Proof.
  set (sr := exec (addRewrite r) s). set (sh := exec (addHandler h) s).
  assert (Hsr : _rewrites sr = _rewrites s ++ [r]) by done.
  assert (Hsh : _handlers sh = _handlers s ++ [h]) by done.
  assert (Hr_new :
             (forall y, y ∈ _rewrites s -> ~ same_rule (from r) (toUrl r) y) ->
             removeRewrite (from r) (toUrl r) sr = (true, s)).
  { intros Hno.
    rewrite (removeRewrite_hit _ _ sr (_rewrites s) r [] Hsr Hno); [|done].
    rewrite app_nil_r. unfold set_rewrites. cbn. by rewrite server_eta. }
  assert (Hr_old : forall pre x post,
             _rewrites s = pre ++ x :: post ->
             (forall y, y ∈ pre -> ~ same_rule (from r) (toUrl r) y) ->
             same_rule (from r) (toUrl r) x ->
             removeRewrite (from r) (toUrl r) sr
             = (true, set_rewrites (pre ++ post ++ [r]) s)).
  { intros pre x post Hsplit Hpre Hx.
    rewrite (removeRewrite_hit _ _ sr pre x (post ++ [r])); [done| |done..].
    by rewrite Hsr, Hsplit, <- app_assoc. }
  assert (Hh_new : (forall y, y ∈ _handlers s -> self y <> self h) ->
                   removeHandler (self h) sh = (true, s)).
  { intros Hno.
    rewrite (removeHandler_hit _ sh (_handlers s) h [] Hsh Hno); [|done].
    rewrite app_nil_r. unfold set_handlers. cbn. by rewrite server_eta. }
  assert (Hh_old : forall pre x post,
             _handlers s = pre ++ x :: post ->
             (forall y, y ∈ pre -> self y <> self h) ->
             self x = self h ->
             removeHandler (self h) sh = (true, set_handlers (pre ++ post ++ [h]) s)).
  { intros pre x post Hsplit Hpre Hx.
    rewrite (removeHandler_hit _ sh pre x (post ++ [h])); [done| |done..].
    by rewrite Hsh, Hsplit, <- app_assoc. }
  assert (Hr_all : eval (removeRewrite (from r) (toUrl r)) sr = true
                   /\ length (_rewrites (exec (removeRewrite (from r) (toUrl r)) sr))
                      = length (_rewrites s)).
  { destruct (first_hit_split
                (fun y => String.eqb (from y) (from r) && String.eqb (toUrl y) (toUrl r))
                (_rewrites s)) as [Hall|(pre & x & post & Hsplit & Hpre & Hx)].
    - unfold eval, exec. rewrite Hr_new; [done|].
      intros y Hy. apply same_rule_false. by apply Hall.
    - unfold eval, exec. rewrite (Hr_old pre x post Hsplit).
      + cbn [fst snd _rewrites set_rewrites].
        rewrite Hsplit. repeat (rewrite !length_app || cbn [length]). lia.
      + intros y Hy. apply same_rule_false. by apply Hpre.
      + by apply same_rule_true. }
  assert (Hh_all : eval (removeHandler (self h)) sh = true
                   /\ length (_handlers (exec (removeHandler (self h)) sh))
                      = length (_handlers s)).
  { destruct (first_hit_split (fun y => Nat.eqb (self y) (self h)) (_handlers s))
      as [Hall|(pre & x & post & Hsplit & Hpre & Hx)].
    - unfold eval, exec. rewrite Hh_new; [done|].
      intros y Hy. apply Nat.eqb_neq. by apply Hall.
    - unfold eval, exec. rewrite (Hh_old pre x post Hsplit).
      + cbn [fst snd _handlers set_handlers].
        rewrite Hsplit. repeat (rewrite !length_app || cbn [length]). lia.
      + intros y Hy. apply Nat.eqb_neq. by apply Hpre.
      + by apply Nat.eqb_eq. }
  destruct Hr_all as [Hr1 Hr2], Hh_all as [Hh1 Hh2].
  split; [done|]. split; [done|]. split; [done|]. split; [done|].
  split; [done|]. split; [done|]. split; done.
Qed.

End Registration_facts.

Lemma add_then_remove_witness :
  WebServer.removeRewrite "/A" "/B" (exec (WebServer.addRewrite demo.probe) demo.srv)
  = (true, WebServer.set_rewrites [demo.R1; demo.probe] demo.srv)
  /\ WebServer.removeRewrite "/x" "/one" (exec (WebServer.addRewrite demo.Ra) demo.srv)
     = (true, demo.srv)
  /\ WebServer.removeHandler 11 (exec (WebServer.addHandler demo.H1) demo.srv)
     = (true, WebServer.set_handlers [demo.H2; demo.H3; demo.H1] demo.srv)
  /\ WebServer.removeHandler 14
       (exec (WebServer.addHandler (WebServer.mkHandler 14 (fun _ => true) (fun _ => true)))
          demo.srv)
     = (true, demo.srv).
Proof.
  split; [|split; [|split]].
  - apply (proj1 (proj2 (proj2 (proj2 (add_then_remove demo.probe demo.H1 demo.srv))))
             [demo.R1] demo.R2 []); [reflexivity| |by split].
    intros y Hy. each_member Hy. by intros [? _].
  - apply (proj1 (proj2 (proj2 (add_then_remove demo.Ra demo.H1 demo.srv)))).
    intros y Hy. cbn in Hy. each_member Hy; by intros [? _].
  - apply (proj2 (proj2 (proj2 (proj2 (proj2 (proj2 (proj2
             (add_then_remove demo.Ra demo.H1 demo.srv)))))))
             [] demo.H1 [demo.H2; demo.H3]); [reflexivity| |reflexivity].
    intros y Hy. each_member Hy.
  - apply (proj1 (proj2 (proj2 (proj2 (proj2 (proj2 (proj2
             (add_then_remove demo.Ra
                (WebServer.mkHandler 14 (fun _ => true) (fun _ => true)) demo.srv)))))))).
    intros y Hy. cbn in Hy. each_member Hy.
Defined.

Section Configuration_facts.
Import WebServer.
Context {RF UF BF : Type}.
Implicit Types (s this : AsyncWebServer RF UF BF) (q : AsyncWebServerRequest)
  (op : ServerOp RF UF BF) (ops : list (ServerOp RF UF BF)).

Lemma run_ops_cons op ops s : run_ops (op :: ops) s = run_ops ops (run_op op s).
Proof. done. Qed.

Lemma removeRewrite_frame (from_ to : string) s :
  _handlers (exec (removeRewrite from_ to) s) = _handlers s
  /\ _catchAllHandler (exec (removeRewrite from_ to) s) = _catchAllHandler s.
Proof.
  unfold exec.
  by destruct (removeRewrite_cases from_ to s) as [->|(pre & x & post & _ & _ & _ & ->)].
Qed.

Lemma removeHandler_frame (p : addr) s :
  _rewrites (exec (removeHandler p) s) = _rewrites s
  /\ _catchAllHandler (exec (removeHandler p) s) = _catchAllHandler s
  /\ (forall h, h ∈ _handlers (exec (removeHandler p) s) -> h ∈ _handlers s).
Proof.
  unfold exec.
  destruct (removeHandler_cases p s) as [->|(pre & x & post & Hsplit & _ & ->)];
    [done|].
  split; [done|]. split; [done|]. cbn. rewrite Hsplit. intros h Hh.
  apply elem_of_app in Hh as [Hh|Hh]; apply elem_of_app; [by left|].
  right. by apply list_elem_of_further.
Qed.

Lemma run_op_catchAll op s : catchAllHandler (run_op op s) = catchAllHandler s.
Proof.
  unfold catchAllHandler.
  destruct op as [r|from_ to|r|h|p|fn|fn|fn|]; cbn [run_op]; try done.
  - by rewrite (proj2 (removeRewrite_frame from_ to s)).
  - unfold removeRewrite_obj. by rewrite (proj2 (removeRewrite_frame _ _ s)).
  - by rewrite (proj1 (proj2 (removeHandler_frame p s))).
Qed.

Lemma run_ops_catchAll ops s : catchAllHandler (run_ops ops s) = catchAllHandler s.
Proof.
  revert s. induction ops as [|op ops IH]; intros s; [done|].
  by rewrite run_ops_cons, IH, run_op_catchAll.
Qed.


Lemma run_op_apart op s :
  catchAll_apart s -> ~ registers (self (catchAllHandler s)) op ->
  catchAll_apart (run_op op s).
Proof.
  intros Hapart Hreg. unfold catchAll_apart. rewrite run_op_catchAll.
  destruct op as [r|from_ to|r|h|p|fn|fn|fn|]; cbn [run_op]; try done.
  - by rewrite (proj1 (removeRewrite_frame from_ to s)).
  - unfold removeRewrite_obj. by rewrite (proj1 (removeRewrite_frame _ _ s)).
  - intros x Hx. cbn in Hx. apply elem_of_app in Hx as [Hx|Hx%list_elem_of_singleton].
    + by apply Hapart.
    + by subst x.
  - intros x Hx. by apply Hapart, (removeHandler_frame p s).
  - intros x Hx. by apply elem_of_nil in Hx.
Qed.

(** X16.  The catch-all stays outside the handler collection along every
    sequence of configuration calls in which [addHandler] is never given
    the catch-all's own address: after such a sequence, from a server where
    it was outside, and so from a newly constructed one, no entry has its
    address and [removeHandler] called with it returns [false] and changes
    nothing. *)
Theorem catchAll_stays_apart ops s :
  catchAll_apart s ->
  (forall op, op ∈ ops -> ~ registers (self (catchAllHandler s)) op) ->
  catchAll_apart (run_ops ops s)
  /\ removeHandler (self (catchAllHandler s)) (run_ops ops s)
     = (false, run_ops ops s).
Proof.
  intros Hapart Hops.
  assert (Hfinal : catchAll_apart (run_ops ops s)).
  { revert s Hapart Hops. induction ops as [|op ops IH]; intros s Hapart Hops; [done|].
    rewrite run_ops_cons. apply IH.
    - apply run_op_apart; [done|]. apply Hops, list_elem_of_here.
    - intros op' Hop'. rewrite run_op_catchAll.
      apply Hops. by apply list_elem_of_further. }
  split; [done|].
  rewrite <- (run_ops_catchAll ops s). by apply removeHandler_miss.
Qed.

Lemma run_op_callback op s :
  sets_callback op ->
  _rewrites (run_op op s) = _rewrites s /\ _handlers (run_op op s) = _handlers s.
Proof. by destruct op. Qed.

(** X17.  Setting the catch-all's callbacks never changes routing: after
    any sequence of [onNotFound], [onFileUpload] and [onRequestBody] calls
    both registries are as they were, and resolution and selection treat
    every request exactly as before. *)
Theorem callbacks_do_not_route ops s q :
  (forall op, op ∈ ops -> sets_callback op) ->
  _rewrites (run_ops ops s) = _rewrites s
  /\ _handlers (run_ops ops s) = _handlers s
  /\ resolve (run_ops ops s) q = resolve s q
  /\ attach (run_ops ops s) q = attach s q.
Proof.
  intros Hops.
  assert (Hreg : _rewrites (run_ops ops s) = _rewrites s
                 /\ _handlers (run_ops ops s) = _handlers s).
  { revert s. induction ops as [|op ops IH]; intros s; [done|].
    rewrite run_ops_cons.
    destruct (run_op_callback op s (Hops op (list_elem_of_here _ _))) as [<- <-].
    apply IH. intros op' Hop'. apply Hops. by apply list_elem_of_further. }
  destruct Hreg as [Hr Hh]. split; [done|]. split; [done|].
  rewrite !resolve_resolved, !attach_selected. unfold selected.
  by rewrite Hr, Hh, run_ops_catchAll.
Qed.
End Configuration_facts.

Lemma catchAll_stays_apart_witness :
  let ops :=
    [OpAddHandler demo.H3; OpRemoveHandler 12; OpOnNotFound (Some tt);
     OpAddRewrite demo.Ra; OpRemoveRewrite "/A" "/B"; OpAddHandler demo.H1] in
  WebServer.catchAll_apart demo.srv
  /\ map WebServer.self (WebServer._handlers (run_ops ops demo.srv)) = [11; 13; 13; 11]
  /\ WebServer.removeHandler 1 (run_ops ops demo.srv) = (false, run_ops ops demo.srv).
Proof.
  intros ops.
  assert (Hapart : WebServer.catchAll_apart demo.srv).
  { intros h Hh. cbn in Hh. each_member Hh. }
  split; [exact Hapart|]. split; [reflexivity|].
  apply (catchAll_stays_apart ops demo.srv Hapart).
  intros op Hop. each_member Hop; cbn; (done || by intros ?).
Defined.

Lemma callbacks_do_not_route_witness :
  let ops : list (ServerOp unit unit unit) :=
    [OpOnNotFound (Some tt); OpOnRequestBody (Some tt); OpOnFileUpload None] in
  WebServer._onRequest (WebServer._catchAllHandler (run_ops ops demo.srv)) = Some tt
  /\ attach (run_ops ops demo.srv) demo.req = attach demo.srv demo.req.
Proof.
  intros ops. split; [reflexivity|].
  apply (callbacks_do_not_route ops demo.srv demo.req).
  intros op Hop. each_member Hop; exact I.
Defined.

Section Filter_facts.
Import WebServer.
Context {RF UF BF IPAddress : Type}.
Variables (ip_eq ip_ne : IPAddress -> IPAddress -> bool).
Variables (soc remote lt : bool).
Variable WiFi_localIP : IPAddress.
Variable client_localIP : AsyncWebServerRequest -> IPAddress.

(** X18.  The two interface filters.  On a build with none of the three
    WiFi macros set both reject every request, so a server whose handlers
    all carry one of them routes everything to the catch-all.  On a build
    with WiFi, where [!=] on addresses is the negation of [==], each request
    passes exactly one of the two. *)
Theorem interface_filters (s : AsyncWebServer RF UF BF) (q : AsyncWebServerRequest) :
  let sta := ON_STA_FILTER ip_eq soc remote lt WiFi_localIP client_localIP in
  let ap := ON_AP_FILTER ip_ne soc remote lt WiFi_localIP client_localIP in
  (soc || remote || lt = false ->
   sta q = false /\ ap q = false
   /\ ((forall h, h ∈ _handlers s ->
          forall q', filter h q' = sta q' \/ filter h q' = ap q') ->
       _handler (attach s q) = Some (self (catchAllHandler s))))
  /\ (soc || remote || lt = true ->
      (forall a b, ip_ne a b = negb (ip_eq a b)) ->
      ap q = negb (sta q)
      /\ sta q = ip_eq WiFi_localIP (client_localIP q)).
Proof.
  intros sta ap. subst sta ap. unfold ON_STA_FILTER, ON_AP_FILTER. split.
  - intros ->. split; [done|]. split; [done|]. intros Hfilters.
    rewrite attach_selected. unfold selected. cbn.
    rewrite find_nothing; [done|].
    intros h Hh. unfold accepts. by destruct (Hfilters h Hh q) as [-> | ->].
  - intros -> Hne. by rewrite Hne.
Qed.
End Filter_facts.

Lemma interface_filters_witness :
  let client := fun q : WebServer.AsyncWebServerRequest =>
                  String.length (WebServer._url q) in
  let guarded :=
    WebServer.mkServer []
      [WebServer.mkHandler 21
         (ON_STA_FILTER Nat.eqb false false false 4 client) (fun _ => true);
       WebServer.mkHandler 22
         (ON_AP_FILTER (fun a b => negb (Nat.eqb a b)) false false false 4 client)
         (fun _ => true)]
      demo.fresh in
  WebServer._handler (attach guarded demo.req) = Some 1
  /\ ON_AP_FILTER (fun a b => negb (Nat.eqb a b)) true false false 4 client demo.req
     = negb (ON_STA_FILTER Nat.eqb true false false 4 client demo.req)
  /\ ON_STA_FILTER Nat.eqb true false false 4 client demo.req = true.
Proof.
  intros client guarded. split; [|split; [|reflexivity]].
  - apply (proj1 (interface_filters Nat.eqb (fun a b => negb (Nat.eqb a b))
                    false false false 4 client guarded demo.req) eq_refl).
    intros h Hh q'. cbn in Hh. each_member Hh; [by left|by right].
  - apply (proj2 (interface_filters Nat.eqb (fun a b => negb (Nat.eqb a b))
                    true false false 4 client guarded demo.req) eq_refl).
    done.
Defined.

(** * Ownership of the handlers *)
Section Ownership_facts.
Import WebServer.
Context {RF UF BF : Type}.
Implicit Types (s this : AsyncWebServer RF UF BF) (m : Machine RF UF BF)
  (q : AsyncWebServerRequest) (op : ServerOp RF UF BF)
  (ops : list (ServerOp RF UF BF)).

Lemma machine_eta m : mkMachine (members m) (destroyed m) = m.
Proof. by destruct m. Qed.

Lemma keeping_run {A} (c : State (AsyncWebServer RF UF BF) A) m :
  exec (keeping c) m = mkMachine (exec c (members m)) (destroyed m).
Proof. unfold exec, keeping. by destruct (c (members m)). Qed.

(** The owning methods leave in the members what the member-level methods
    leave, and return what they return. *)
Lemma removeHandler_owned_run p m :
  removeHandler_owned p m
  = (eval (removeHandler p) (members m),
     mkMachine (exec (removeHandler p) (members m))
       (destroyed m ++ if eval (removeHandler p) (members m) then [p] else [])).
Proof.
  destruct (first_hit_split (fun h => Nat.eqb (self h) p) (_handlers (members m)))
    as [Hall|(pre & h & post & Hsplit & Hpre & Hh)].
  - assert (Hmiss : forall h, h ∈ _handlers (members m) -> self h <> p).
    { intros h Hh. apply Nat.eqb_neq. by apply Hall. }
    unfold eval, exec. rewrite removeHandler_owned_miss, removeHandler_miss by done.
    cbn [fst snd]. by rewrite app_nil_r, machine_eta.
  - apply Nat.eqb_eq in Hh.
    assert (Hmiss : forall h', h' ∈ pre -> self h' <> p).
    { intros h' Hh'. apply Nat.eqb_neq. by apply Hpre. }
    unfold eval, exec.
    by rewrite (removeHandler_owned_hit _ _ pre h post Hsplit Hmiss Hh),
      (removeHandler_hit _ _ pre h post Hsplit Hmiss Hh).
Qed.

Lemma reset_owned_run m :
  reset_owned m
  = (tt, mkMachine (exec reset (members m))
           (destroyed m ++ (self <$> _handlers (members m)))).
Proof. done. Qed.


Lemma owned_run_op_members op m : members (Owned.run_op op m) = run_op op (members m).
Proof.
  destruct op as [r|from_ to|r|h|p|fn|fn|fn|]; cbn [Owned.run_op run_op];
    rewrite ?keeping_run; try done.
  unfold exec at 1. by rewrite removeHandler_owned_run.
Qed.


(** A call that erases no handler destroys nothing. *)
Lemma sound_kept m m' :
  _handlers (members m') = _handlers (members m) ->
  catchAllHandler (members m') = catchAllHandler (members m) ->
  destroyed m' = destroyed m ->
  Owned.sound m -> Owned.sound m'.
Proof.
  intros Hh Hc Hd ((Hnd & Hapart) & Hgone & Hlive).
  unfold Owned.sound, Owned.owns_once, catchAll_apart. by rewrite Hh, Hc, Hd.
Qed.

Lemma sound_removed m pre h post :
  _handlers (members m) = pre ++ h :: post ->
  Owned.sound m ->
  Owned.sound (mkMachine (set_handlers (pre ++ post) (members m))
                 (destroyed m ++ [self h])).
Proof.
  intros Hsplit ((Hnd & Hapart) & Hgone & Hlive).
  rewrite Hsplit, fmap_app, fmap_cons in Hnd.
  apply NoDup_app in Hnd as (Hpre & Hcross & Hpost).
  apply NoDup_cons in Hpost as (Hh & Hpost).
  assert (Hnot : self h ∉ self <$> pre ++ post).
  { rewrite fmap_app. intros [Hin|Hin]%elem_of_app; [|done].
    apply (Hcross _ Hin), list_elem_of_here. }
  assert (Hin : self h ∈ self <$> _handlers (members m)).
  { rewrite Hsplit, fmap_app, fmap_cons. apply elem_of_app. right.
    apply list_elem_of_here. }
  split; [split|split].
  - cbn [members _handlers set_handlers]. rewrite fmap_app.
    apply NoDup_app. split; [done|]. split; [|done].
    intros a Ha Ha'. apply (Hcross a Ha). by apply list_elem_of_further.
  - intros x Hx. apply Hapart. rewrite Hsplit. cbn in Hx.
    apply elem_of_app in Hx as [Hx|Hx]; apply elem_of_app; [by left|].
    right. by apply list_elem_of_further.
  - cbn [destroyed]. apply NoDup_app. split; [done|].
    split; [|apply NoDup_singleton].
    intros a Ha ->%list_elem_of_singleton. by apply (proj1 (Hlive _ Ha)).
  - cbn [destroyed members _handlers set_handlers catchAllHandler _catchAllHandler].
    intros a [Ha| ->%list_elem_of_singleton]%elem_of_app.
    + destruct (Hlive a Ha) as [Hout Hne]. split; [|done].
      rewrite Hsplit in Hout. rewrite fmap_app in *. rewrite fmap_cons in Hout.
      intros [Hin'|Hin']%elem_of_app; apply Hout, elem_of_app; [by left|].
      right. by apply list_elem_of_further.
    + split; [done|]. apply Hapart. rewrite Hsplit. apply elem_of_app. right.
      apply list_elem_of_here.
Qed.

Lemma sound_cleared m :
  Owned.sound m ->
  Owned.sound (exec reset_owned m).
Proof.
  intros ((Hnd & Hapart) & Hgone & Hlive).
  unfold exec. rewrite reset_owned_run. cbn [snd].
  split; [split|split].
  - apply NoDup_nil_2.
  - intros x Hx. by apply elem_of_nil in Hx.
  - cbn [destroyed]. apply NoDup_app. split; [done|]. split; [|done].
    intros a Ha. by apply (proj1 (Hlive a Ha)).
  - cbn [destroyed]. intros a Ha. split; [apply not_elem_of_nil|].
    change (a <> self (catchAllHandler (members m))).
    apply elem_of_app in Ha as [Ha|Ha]; [by apply (proj2 (Hlive a Ha))|].
    apply list_elem_of_fmap in Ha as (x & -> & Hx). by apply Hapart.
Qed.

Lemma sound_run_op op m :
  Owned.sound m -> Owned.hands_over m op -> Owned.sound (Owned.run_op op m).
Proof.
  intros Hsound Hover.
  destruct op as [r|from_ to|r|h|p|fn|fn|fn|]; cbn [Owned.run_op];
    rewrite ?keeping_run;
    try (by apply (sound_kept m); [..|exact Hsound]).
  - apply (sound_kept m); cbn [members destroyed]; [| |done..].
    + apply (proj1 (removeRewrite_frame from_ to (members m))).
    + unfold catchAllHandler.
      by rewrite (proj2 (removeRewrite_frame from_ to (members m))).
  - apply (sound_kept m); cbn [members destroyed]; [| |done..].
    + apply (proj1 (removeRewrite_frame _ _ (members m))).
    + unfold catchAllHandler, removeRewrite_obj.
      by rewrite (proj2 (removeRewrite_frame _ _ (members m))).
  - destruct Hover as (Hnew & Hlive & Hne).
    destruct Hsound as ((Hnd & Hapart) & Hgone & Hdead).
    split; [split|split]; cbn.
    + rewrite fmap_app. apply NoDup_app. split; [done|].
      split; [|apply NoDup_singleton].
      by intros a Ha ->%list_elem_of_singleton.
    + intros x [Hx| ->%list_elem_of_singleton]%elem_of_app; [by apply Hapart|done].
    + done.
    + intros a Ha. destruct (Hdead a Ha) as [Hout Hne']. split; [|done].
      rewrite fmap_app.
      intros [Hin| ->%list_elem_of_singleton]%elem_of_app; [done|].
      by apply Hlive.
  - destruct (first_hit_split (fun h => Nat.eqb (self h) p) (_handlers (members m)))
      as [Hall|(pre & h & post & Hsplit & Hpre & Hh)].
    + unfold exec. rewrite removeHandler_owned_miss; [done|].
      intros h Hh. apply Nat.eqb_neq. by apply Hall.
    + apply Nat.eqb_eq in Hh. unfold exec.
      rewrite (removeHandler_owned_hit _ _ pre h post Hsplit); [|
        intros h' Hh'; apply Nat.eqb_neq; by apply Hpre|done].
      cbn [snd]. rewrite <- Hh. by apply sound_removed.
  - by apply sound_cleared.
Qed.


(** A sound machine has not destroyed its catch-all. *)
Lemma sound_catchAll_alive m :
  Owned.sound m -> self (catchAllHandler (members m)) ∉ destroyed m.
Proof. intros (_ & _ & Hlive) Hin. by apply (proj2 (Hlive _ Hin)). Qed.

(** What a call destroys was an entry of the collection. *)
Lemma run_op_destroys op m a :
  a ∈ destroyed (Owned.run_op op m) ->
  a ∈ destroyed m \/ a ∈ self <$> _handlers (members m).
Proof.
  destruct op as [r|from_ to|r|h|p|fn|fn|fn|]; cbn [Owned.run_op];
    rewrite ?keeping_run; cbn [destroyed]; try by left.
  - unfold exec. rewrite removeHandler_owned_run. cbn [snd destroyed].
    intros [Ha|Ha]%elem_of_app; [by left|]. right.
    destruct (eval (removeHandler p) (members m)) eqn:Hfound;
      [|by apply elem_of_nil in Ha].
    apply list_elem_of_singleton in Ha as ->.
    apply removeHandler_true_iff in Hfound as (h & Hh & <-).
    apply list_elem_of_fmap. by exists h.
  - unfold exec. rewrite reset_owned_run. cbn [snd destroyed].
    intros [Ha|Ha]%elem_of_app; [by left|by right].
Qed.

(** Selection does not ask the catch-all whether it accepts. *)
Lemma with_tests_selected f c s q : selected (Owned.with_tests f c s) q = selected s q.
Proof. done. Qed.


(** C8, as the code has it.  The catch-all is the object created by the
    constructor and held in [_catchAllHandler], a member of its own: the
    handler collection starts empty, and no registry operation
    ([addRewrite], [removeRewrite], [addHandler], [removeHandler], the
    three callback setters, [reset]) and neither phase of dispatch changes
    the address that member holds.  As long as the collection does not
    hold the catch-all's own address, [removeHandler] called with the
    catch-all returns [false], destroys nothing and leaves the server
    unchanged, and selection never asks the catch-all whether it accepts:
    the binding is the same whatever its [filter] and [canHandle] answer.
    On a server whose collection owns each of its handlers once and not
    the catch-all, and that refers to no destroyed object, every registry
    operation in which [addHandler] is handed a live object that the
    server does not refer to yet keeps all of that true: the catch-all is
    not destroyed, only entries of the collection are, the catch-all is
    the object it was (only the callback setters and [reset] write to it,
    and only to its callbacks), and [removeHandler] called with it still
    returns [false]. *)
Theorem catchAll_outside_collection (fresh : AsyncCallbackWebHandler RF UF BF) m :
  let s := members m in
  let catchAll := self (catchAllHandler s) in
  (_handlers (AsyncWebServer_new fresh) = []
   /\ _catchAllHandler (AsyncWebServer_new fresh) = fresh
   /\ catchAll_apart (AsyncWebServer_new fresh)
   /\ Owned.sound (mkMachine (AsyncWebServer_new fresh) []))
  /\ (forall op, self (catchAllHandler (members (Owned.run_op op m))) = catchAll)
  /\ (forall w : World RF UF BF,
        server (exec _attachHandler w) = server w
        /\ server (exec _rewriteRequest w) = server w)
  /\ (catchAll_apart s ->
      removeHandler_owned catchAll m = (false, m)
      /\ removeHandler catchAll s = (false, s)
      /\ forall f c q log,
           request (exec _attachHandler (mkWorld (Owned.with_tests f c s) q log))
           = request (exec _attachHandler (mkWorld s q log))
           /\ assigned (exec _attachHandler (mkWorld (Owned.with_tests f c s) q log))
              = assigned (exec _attachHandler (mkWorld s q log)))
  /\ (Owned.sound m ->
      forall op, Owned.hands_over m op ->
        let m' := Owned.run_op op m in
        Owned.sound m'
        /\ catchAll_apart (members m')
        /\ catchAllHandler (members m') = catchAllHandler s
        /\ (catchAll ∉ destroyed m')
        /\ (forall a, a ∈ destroyed m' ->
              a ∈ destroyed m \/ a ∈ self <$> _handlers s)
        /\ (~ sets_callback op -> op <> OpReset ->
            _catchAllHandler (members m') = _catchAllHandler s)
        /\ removeHandler_owned catchAll m' = (false, m')).
Proof.
  intros s catchAll.
  assert (Hnew : catchAll_apart (AsyncWebServer_new fresh)).
  { intros h Hh. by apply elem_of_nil in Hh. }
  split; [|split; [|split; [|split]]].
  - do 3 (split; [done|]). split; [split; [apply NoDup_nil_2|done]|].
    split; [apply NoDup_nil_2|]. intros a Ha. by apply elem_of_nil in Ha.
  - intros op. by rewrite owned_run_op_members, run_op_catchAll.
  - intros w. split.
    + destruct (attachHandler_cases w) as (p & Hrun & _).
      unfold exec. by rewrite Hrun.
    + unfold exec. by rewrite rewriteRequest_run.
  - intros Hapart. split; [by apply removeHandler_owned_miss|].
    split; [by apply removeHandler_miss|].
    intros f c q log. unfold exec. rewrite !attachHandler_selected.
    cbn [server request]. by rewrite with_tests_selected.
  - intros Hsound op Hover m'.
    assert (Hsound' : Owned.sound m') by by apply sound_run_op.
    assert (Hsame : catchAllHandler (members m') = catchAllHandler s).
    { subst m'. by rewrite owned_run_op_members, run_op_catchAll. }
    split; [done|]. split; [apply Hsound'|]. split; [done|].
    split; [|split; [|split]].
    + subst catchAll. rewrite <- Hsame. by apply sound_catchAll_alive.
    + intros a. apply run_op_destroys.
    + intros Hset Hreset. subst m'. rewrite owned_run_op_members.
      destruct op as [r|from_ to|r|h|p|fn|fn|fn|]; cbn [run_op]; try done.
      * apply (proj2 (removeRewrite_frame from_ to s)).
      * apply (proj2 (removeRewrite_frame _ _ s)).
      * apply (proj1 (proj2 (removeHandler_frame p s))).
    + subst catchAll. rewrite <- Hsame. apply removeHandler_owned_miss.
      apply Hsound'.
Qed.

(** X14.  Removing a handler that is registered once, and is not the
    catch-all, destroys that handler and no other object, and no request
    is bound to it afterwards.  If it rejected a request, what that
    request is bound to does not change; if it was what the request was
    bound to, the request goes to the next handler that accepts it, or to
    the catch-all. *)
Theorem removing_a_handler p m q pre (x : AsyncWebHandler) post :
  let s := members m in
  let m' := exec (removeHandler_owned p) m in
  _handlers s = pre ++ x :: post ->
  (forall y, y ∈ pre -> self y <> p) ->
  self x = p ->
  (forall y, y ∈ post -> self y <> p) ->
  p <> self (catchAllHandler s) ->
  members m' = exec (removeHandler p) s
  /\ _handlers (members m') = pre ++ post
  /\ destroyed m' = destroyed m ++ [p]
  /\ (forall q', _handler (attach (members m') q') <> Some p)
  /\ (accepts q x = false -> attach (members m') q = attach s q)
  /\ (accepts q x = true ->
      (forall y, y ∈ pre -> accepts q y = false) ->
      _handler (attach s q) = Some p
      /\ attach (members m') q = attach (set_handlers post s) q).
Proof.
  intros s m' Hsplit Hpre Hx Hpost Hne. subst m'. unfold exec.
  rewrite (removeHandler_owned_hit p m pre x post Hsplit Hpre Hx),
    (removeHandler_hit p s pre x post Hsplit Hpre Hx). cbn [snd members destroyed].
  do 3 (split; [done|]).
  rewrite !attach_selected. unfold selected. cbn [_handlers set_handlers catchAllHandler
    _catchAllHandler]. fold s. rewrite Hsplit. split; [|split].
  - intros q'. rewrite attach_selected. unfold selected.
    cbn [_handlers set_handlers catchAllHandler _catchAllHandler _handler].
    destruct (List.find (accepts q') (pre ++ post)) as [y|] eqn:Hfind.
    + apply find_some in Hfind as [Hy _]. apply list_elem_of_In in Hy.
      intros [= Heq]. apply elem_of_app in Hy as [Hy|Hy].
      * by apply (Hpre y Hy).
      * by apply (Hpost y Hy).
    + intros [= Heq]. by apply Hne.
  - intros Hrej. by rewrite (find_skip _ _ _ _ Hrej).
  - intros Hacc Hrej. rewrite (find_first _ _ _ _ Hrej Hacc), Hx.
    split; [done|]. by rewrite find_app_l, (find_nothing _ _ Hrej).
Qed.


End Ownership_facts.

(** ** The ownership statements on the small configuration *)

(** A list of addresses written out has no repetition, an address written
    out is not in it. *)
Ltac no_member :=
  let H := fresh "H" in
  let E := fresh "E" in
  intros H; cbn in H;
  repeat (apply elem_of_cons in H as [E|H]; [discriminate E|]);
  by apply elem_of_nil in H.

Ltac all_distinct :=
  cbn; repeat (apply NoDup_cons; split; [no_member|]); apply NoDup_nil_2.

Lemma demo_sound : Owned.sound (WebServer.mkMachine demo.srv []).
Proof.
  split; [split|split].
  - all_distinct.
  - intros h Hh. cbn in Hh. each_member Hh.
  - apply NoDup_nil_2.
  - intros a Ha. by apply elem_of_nil in Ha.
Qed.



(** C8 does not hold of every registry state: [addHandler] accepts the
    address that [catchAllHandler()] hands out; once it is in the
    collection, [removeHandler] called with the catch-all finds it, erases
    the entry, which destroys the catch-all, and returns [true]; the
    member still holds the address of the destroyed object. *)
Lemma catchAll_removed_once_registered :
  let s0 := WebServer.AsyncWebServer_new demo.fresh in
  let s := exec (WebServer.addHandler (WebServer.catchAllHandler s0)) s0 in
  let catchAll := WebServer.self (WebServer.catchAllHandler s) in
  let m' := exec (WebServer.removeHandler_owned catchAll) (WebServer.mkMachine s []) in
  eval (WebServer.removeHandler catchAll) s = true
  /\ eval (WebServer.removeHandler_owned catchAll) (WebServer.mkMachine s []) = true
  /\ WebServer._handlers (exec (WebServer.removeHandler catchAll) s)
     <> WebServer._handlers s
  /\ WebServer.destroyed m' = [catchAll]
  /\ WebServer.self (WebServer.catchAllHandler (WebServer.members m')) = catchAll
  /\ ~ (forall s' : WebServer.AsyncWebServer unit unit unit,
          WebServer.removeHandler (WebServer.self (WebServer.catchAllHandler s')) s'
          = (false, s')).
Proof.
  intros s0 s catchAll m'. split; [reflexivity|]. split; [reflexivity|].
  split; [discriminate|]. split; [reflexivity|]. split; [reflexivity|].
  intros Hall. specialize (Hall s). discriminate Hall.
Qed.

Lemma catchAll_outside_collection_witness :
  let m := WebServer.mkMachine demo.srv [] in
  let after_reset := Owned.run_op OpReset m in
  let after_remove := Owned.run_op (OpRemoveHandler 12) m in
  let after_add := Owned.run_op (OpAddHandler demo.H4) m in
  (WebServer.catchAll_apart demo.srv /\ Owned.sound m)
  /\ WebServer.removeHandler_owned 1 m = (false, m)
  /\ (forall q,
        WebServer.request
          (exec WebServer._attachHandler
             (WebServer.mkWorld
                (Owned.with_tests (fun _ => false) (fun _ => false) demo.srv) q []))
        = WebServer.request
            (exec WebServer._attachHandler (WebServer.mkWorld demo.srv q [])))
  /\ (WebServer.destroyed after_reset = [11; 12; 13]
      /\ (1 ∉ WebServer.destroyed after_reset)
      /\ WebServer.catchAllHandler (WebServer.members after_reset)
         = WebServer.catchAllHandler demo.srv
      /\ WebServer.removeHandler_owned 1 after_reset = (false, after_reset))
  /\ (WebServer.destroyed after_remove = [12]
      /\ (1 ∉ WebServer.destroyed after_remove)
      /\ WebServer._catchAllHandler (WebServer.members after_remove) = demo.fresh)
  /\ (Owned.sound after_add
      /\ WebServer._catchAllHandler (WebServer.members after_add) = demo.fresh).
Proof.
  intros m after_reset after_remove after_add.
  assert (Hapart : WebServer.catchAll_apart demo.srv) by apply demo_sound.
  destruct (catchAll_outside_collection demo.fresh m)
    as (_ & _ & _ & Hout & Hops).
  destruct (Hout Hapart) as (Hremove & _ & Hblind).
  destruct (Hops demo_sound OpReset I) as (_ & _ & Hsame & Halive & _ & _ & Hstill).
  destruct (Hops demo_sound (OpRemoveHandler 12) I)
    as (_ & _ & _ & Halive' & _ & Hobject & _).
  assert (Hfresh : Owned.hands_over m (OpAddHandler demo.H4)).
  { split; [no_member|]. split; [no_member|discriminate]. }
  destruct (Hops demo_sound (OpAddHandler demo.H4) Hfresh)
    as (Hsound & _ & _ & _ & _ & Hobject' & _).
  split; [split; [exact Hapart|exact demo_sound]|].
  split; [exact Hremove|].
  split; [intros q; apply (Hblind _ _ q [])|].
  split; [split; [reflexivity|split; [exact Halive|split; [exact Hsame|exact Hstill]]]|].
  split.
  - split; [reflexivity|]. split; [exact Halive'|].
    apply Hobject; [by intros []|discriminate].
  - split; [exact Hsound|]. apply Hobject'; [by intros []|discriminate].
Defined.

Lemma removing_a_handler_witness :
  let q := WebServer.mkRequest "/B" [] None in
  let m := WebServer.mkMachine demo.srv [] in
  attach (WebServer.members (exec (WebServer.removeHandler_owned 11) m)) q
  = attach demo.srv q
  /\ WebServer._handler (attach demo.srv q) = Some 12
  /\ WebServer._handler
       (attach (WebServer.members (exec (WebServer.removeHandler_owned 12) m)) q)
     = Some 13
  /\ WebServer._handlers (WebServer.members (exec (WebServer.removeHandler_owned 12) m))
     = [demo.H1; demo.H3]
  /\ WebServer.destroyed (exec (WebServer.removeHandler_owned 12) m) = [12].
Proof.
  intros q m.
  assert (Hpre : forall y, y ∈ [demo.H1] -> WebServer.self y <> 12).
  { intros y Hy. each_member Hy. }
  assert (Hpost : forall y, y ∈ [demo.H3] -> WebServer.self y <> 12).
  { intros y Hy. each_member Hy. }
  assert (Hpost' : forall y, y ∈ [demo.H2; demo.H3] -> WebServer.self y <> 11).
  { intros y Hy. each_member Hy. }
  destruct (removing_a_handler 11 m q [] demo.H1 [demo.H2; demo.H3] eq_refl
              (fun y Hy => False_ind _ (proj1 (elem_of_nil y) Hy)) eq_refl Hpost')
    as (_ & _ & _ & _ & Hrej & _); [discriminate|].
  destruct (removing_a_handler 12 m q [demo.H1] demo.H2 [demo.H3] eq_refl Hpre
              eq_refl Hpost)
    as (_ & Hleft & Hgone & _ & _ & Hacc); [discriminate|].
  split; [apply Hrej; reflexivity|]. split; [reflexivity|].
  split; [|split; [exact Hleft|exact Hgone]].
  destruct (Hacc eq_refl) as [_ ->]; [|reflexivity].
  intros y Hy. each_member Hy.
Defined.

